(** * collectd: threshold lookup, metadata label list, metric pipeline

    A shallow embedding of
    - [src/utils_threshold.c]: [threshold_get], [threshold_search],
      [ut_search_threshold];
    - [src/gcp_metadata.c]: [create_list_node], [add_label],
      [tokenize_extra_fields], [cleanup_list] and the callbacks of the
      plugin;
    - the converter and the write queue exercised by
      [src/daemon/metrics_list_test.c] (their implementation, [plugin.c],
      is only reached through that test).

    Part I holds the definitions, Parts II and III the properties. *)

From stdpp Require Import gmap strings list.
From Stdlib Require Import ZArith Ascii String.

Local Open Scope Z_scope.

(** * Part I. Definitions *)

(** ** Strings and the AVL tree used as a dictionary *)

(** The first [n] characters of [s]: what a bounded formatted write keeps. *)
Fixpoint str_take (n : nat) (s : string) : string :=
  match n, s with
  | S n', String c s' => String c (str_take n' s')
  | _, _ => EmptyString
  end.

(** [n] copies of the character [c]. *)
Fixpoint str_repeat (c : ascii) (n : nat) : string :=
  match n with
  | O => EmptyString
  | S n' => String c (str_repeat c n')
  end.

(** A [char *] argument that may be [NULL]. *)
Abbreviation cstr := (option string).

(** [(p == NULL) ? "" : p] *)
Definition or_empty (p : cstr) : string := default "" p.

(** Modelled from the spec: [utils/avltree/avltree.c] is not among the
    sources covered here.  A [c_avl_tree_t] created with [strcmp] as
    comparison is an ordered map from string keys to values; [c_avl_get]
    returns [0] and the stored value when the key is present and a
    non-zero status otherwise, rendered here as an [option]. *)
Abbreviation c_avl_tree_t V := (gmap string V).

(** Modelled from the spec: [c_avl_get] of [avltree.c],
    "get(key) -> value or NotFound". *)
Definition c_avl_get {V} (t : c_avl_tree_t V) (key : string) : option V :=
  t !! key.

(** Modelled from the spec: [c_avl_insert] of [avltree.c]; keys are
    unique, a key that is present keeps its value. *)
Definition c_avl_insert {V} (t : c_avl_tree_t V) (key : string) (v : V)
  : c_avl_tree_t V :=
  match t !! key with
  | Some _ => t
  | None => <[key := v]> t
  end.

(** ** Data model of the threshold code *)

(** Modelled from the spec: [utils_threshold.h] and [plugin.h] are not
    among the sources covered here.  A threshold record carries its four
    match fields, its alerting bounds (the [gauge_t] doubles are kept as
    their 64-bit patterns, they are only ever copied) and the [next]
    link. *)
#[warnings="-register-all"]
Inductive threshold_t := Threshold {
  th_host : string;
  th_plugin : string;
  th_type : string;
  th_data_source : string;
  warning_min : Z;
  warning_max : Z;
  failure_min : Z;
  failure_max : Z;
  hysteresis : Z;
  flags : Z;
  hits : Z;
  next : option threshold_t
}.

(** [ret_threshold->next = NULL] *)
Definition clear_next (t : threshold_t) : threshold_t :=
  Threshold (th_host t) (th_plugin t) (th_type t) (th_data_source t)
            (warning_min t) (warning_max t) (failure_min t) (failure_max t)
            (hysteresis t) (flags t) (hits t) None.

(** Modelled from the spec: [identity_t] of [plugin.h], a name and a label
    store; in the store keys are unique and a value may be absent. *)
Record identity_t := Identity {
  id_name : string;
  root_p : c_avl_tree_t cstr
}.

(** Modelled from the spec: [data_source_t] of [plugin.h], the name and
    kind of one value slot of a type. *)
Record data_source_t := DataSource {
  ds_name : string;
  ds_type : Z
}.

Definition DS_TYPE_COUNTER : Z := 0.
Definition DS_TYPE_GAUGE : Z := 1.
Definition DS_TYPE_DERIVE : Z := 2.
Definition DS_TYPE_ABSOLUTE : Z := 3.

(** Modelled from the spec: [value_t] of [plugin.h], one of the four
    numeric kinds; a gauge is kept as the bit pattern of its double. *)
Inductive value_t :=
| gauge (bits : Z)
| counter (n : Z)
| derive (n : Z)
| absolute (n : Z).

(** Modelled from the spec: [metric_t] of [plugin.h].  [threshold_search]
    reads [metric_p->plugin], [metric_p->type], [metric_p->ds->name] and
    [metric_p->identity->root_p]; the tests of the pipeline read [type],
    the data source name, [time], [interval] and [identity].  The [ds] and
    [identity] pointers are dereferenced unchecked by the source; the
    record holds their targets. *)
Record metric_t := Metric {
  value : value_t;
  value_ds_type : Z;
  plugin : string;
  type : string;
  ds : data_source_t;
  time : Z;
  interval : Z;
  meta : option (gmap string string);
  identity : identity_t
}.

(** ** The global registry and what is done to it *)

Inductive event :=
| EvLock                    (* pthread_mutex_lock (&threshold_lock) *)
| EvUnlock                  (* pthread_mutex_unlock (&threshold_lock) *)
| EvGet (name : string).    (* c_avl_get (threshold_tree, name, ...) *)

(** The exported globals [threshold_tree] and [threshold_lock]; the tree
    is taken to exist (the source hands it to [c_avl_get] unchecked), the
    lock is represented by the sequence of operations performed on it,
    interleaved with the probes of the tree. *)
Record world := World {
  threshold_tree : c_avl_tree_t threshold_t;
  trace : list event
}.

Definition M (A : Type) : Type := world → A * world.

#[export] Instance M_ret : MRet M := λ A (a : A) w, (a, w).
#[export] Instance M_bind : MBind M :=
  λ A B (f : A → M B) (m : M A) w, let '(a, w') := m w in f a w'.

Definition emit (e : event) : M unit :=
  λ w, (tt, World (threshold_tree w) (trace w ++ [e])).

Definition pthread_mutex_lock : M unit := emit EvLock.
Definition pthread_mutex_unlock : M unit := emit EvUnlock.

(** [c_avl_get (threshold_tree, name, &th)] on the global tree. *)
Definition tree_get (name : string) : M (option threshold_t) :=
  λ w, (c_avl_get (threshold_tree w) name,
        World (threshold_tree w) (trace w ++ [EvGet name])).

Definition EINVAL : Z := 22.
Definition ENOENT : Z := 2.

Section UtilsThreshold.

(** [DATA_MAX_NAME_LEN] comes from [plugin.h]; the code only uses it to
    size the buffer of [threshold_get]. *)
Variable DATA_MAX_NAME_LEN : nat.

(** [snprintf (name, sizeof (name), "%s/%s/%s/%s", ...)] followed by
    [name[sizeof (name) - 1] = '\0']: at most [sizeof (name) - 1]
    characters of the formatted text are kept. *)
Definition format_name (hostname plugin type data_source : cstr) : string :=
  or_empty hostname +:+ "/" +:+ or_empty plugin +:+ "/" +:+
  or_empty type +:+ "/" +:+ or_empty data_source.

Definition name_buffer (hostname plugin type data_source : cstr) : string :=
  str_take (5 * DATA_MAX_NAME_LEN - 1)
           (format_name hostname plugin type data_source).

Definition threshold_get (hostname plugin type data_source : cstr)
  : M (option threshold_t) :=
  tree_get (name_buffer hostname plugin type data_source).

(** The chain of [if ((th = threshold_get (...)) != NULL) ; else if ...].
    The closing [sfree (host_p)] releases the string the label store
    handed out; it has no effect on the values returned. *)
Definition threshold_search (metric_p : option metric_t)
  : M (option threshold_t) :=
  match metric_p with
  | None => mret None
  | Some m =>
    match c_avl_get (root_p (identity m)) "__host__" with
    | None => mret None
    | Some host_p =>
      let plugin := Some (plugin m) in
      let type := Some (type m) in
      let ds_name := Some (ds_name (ds m)) in
      th ← threshold_get host_p plugin type ds_name;
      if th is Some _ then mret th else
      th ← threshold_get host_p plugin type None;
      if th is Some _ then mret th else
      th ← threshold_get host_p (Some "") type ds_name;
      if th is Some _ then mret th else
      th ← threshold_get host_p (Some "") type None;
      if th is Some _ then mret th else
      th ← threshold_get (Some "") plugin type ds_name;
      if th is Some _ then mret th else
      th ← threshold_get (Some "") plugin type None;
      if th is Some _ then mret th else
      th ← threshold_get (Some "") (Some "") type ds_name;
      if th is Some _ then mret th else
      th ← threshold_get (Some "") (Some "") type None;
      mret th
    end
  end.

(** [ret_threshold] is an out-parameter: the function receives the
    caller's record and returns its contents on exit next to the status. *)
Definition ut_search_threshold (metric_p : option metric_t)
    (ret_threshold : threshold_t) : M (Z * threshold_t) :=
  match metric_p with
  | None => mret (EINVAL, ret_threshold)
  | Some _ =>
    pthread_mutex_lock;;
    t ← threshold_search metric_p;
    match t with
    | None =>
      pthread_mutex_unlock;;
      mret (ENOENT, ret_threshold)
    | Some t =>
      let ret_threshold := t in          (* memcpy *)
      pthread_mutex_unlock;;
      let ret_threshold := clear_next ret_threshold in
      mret (0, ret_threshold)
    end
  end.

End UtilsThreshold.

(** ** The cascade and the exact lookup as the specification words them *)

(** The eight probes the specification lists for a metric, most specific
    first; the wildcard is the empty string. *)
Definition cascade (host : cstr) (plugin type data_source : string)
  : list (cstr * cstr * cstr * cstr) :=
  [ (host,    Some plugin, Some type, Some data_source);
    (host,    Some plugin, Some type, Some "");
    (host,    Some "",     Some type, Some data_source);
    (host,    Some "",     Some type, Some "");
    (Some "", Some plugin, Some type, Some data_source);
    (Some "", Some plugin, Some type, Some "");
    (Some "", Some "",     Some type, Some data_source);
    (Some "", Some "",     Some type, Some "") ].

Section ThresholdSpecification.

Variable DATA_MAX_NAME_LEN : nat.

(** The key a probe is looked up under. *)
Definition probe_key (p : cstr * cstr * cstr * cstr) : string :=
  let '(h, pl, ty, d) := p in name_buffer DATA_MAX_NAME_LEN h pl ty d.

(** Probing in order as the specification words it: try each probe in
    turn with the exact lookup, stop at the first record found. *)
Fixpoint probe_in_order (probes : list (cstr * cstr * cstr * cstr))
  : M (option threshold_t) :=
  match probes with
  | [] => mret None
  | (h, pl, ty, d) :: probes' =>
    th ← threshold_get DATA_MAX_NAME_LEN h pl ty d;
    match th with
    | Some t => mret (Some t)
    | None => probe_in_order probes'
    end
  end.

(** The probes made until the first hit, that one included. *)
Fixpoint probed (tree : c_avl_tree_t threshold_t) (keys : list string)
  : list string :=
  match keys with
  | [] => []
  | k :: keys' =>
    match tree !! k with
    | Some _ => [k]
    | None => k :: probed tree keys'
    end
  end.

End ThresholdSpecification.

(** The exact lookup as the specification words it: the record returned
    is the one stored under the literal concatenation. *)
Definition get_by_literal_key (DATA_MAX_NAME_LEN : nat) : Prop :=
  ∀ hostname plugin type data_source w,
    (threshold_get DATA_MAX_NAME_LEN hostname plugin type data_source w).1
    = threshold_tree w !! (or_empty hostname +:+ "/" +:+ or_empty plugin
                           +:+ "/" +:+ or_empty type +:+ "/"
                           +:+ or_empty data_source).

(** ** The label list of [gcp_metadata.c] *)

(** A node of the list; the [next_p] chain is the Rocq list itself. *)
Record tmp_list_t := Node {
  key_p : cstr;
  value_p : cstr
}.

(** [list_container_t]: the header, whose [next_p] is the first node. *)
Abbreviation list_container_t := (list tmp_list_t).

(** A call either returns or runs into undefined behaviour. *)
Inductive outcome (A : Type) :=
| Fault
| Done (a : A).
Arguments Fault {A}.
Arguments Done {A} a.

#[export] Instance outcome_ret : MRet outcome := λ A (a : A), Done a.
#[export] Instance outcome_bind : MBind outcome :=
  λ A B (f : A → outcome B) (m : outcome A),
    match m with
    | Fault => Fault
    | Done a => f a
    end.

(** The allocator: the results of the [malloc] calls to come, [true] for a
    block and [false] for [NULL]; once the script is used up every call
    succeeds. *)
Abbreviation allocator := (list bool).

(** [malloc (n) != NULL], and the allocator after the call. *)
Definition malloc (h : allocator) : bool * allocator :=
  match h with
  | [] => (true, [])
  | ok :: h' => (ok, h')
  end.

(** [strlen (p)]: reading through [NULL] is undefined. *)
Definition strlen (p : cstr) : outcome nat :=
  match p with
  | None => Fault
  | Some s => Done (String.length s)
  end.

(** [create_list_node]: the node with copies of key and value, or [NULL]
    when the key is null or one of the three allocations fails. *)
Definition create_list_node (key_p value_p : cstr) (h : allocator)
  : outcome (option tmp_list_t * allocator) :=
  match key_p with
  | None => Done (None, h)
  | Some key =>
    let '(node_ok, h) := malloc h in
    if negb node_ok then Done (None, h) else
    let '(key_ok, h) := malloc h in          (* strlen (key_p) + 1 *)
    if negb key_ok then Done (None, h) else
    _ ← strlen value_p;                      (* strlen (value_p) + 1 *)
    let '(value_ok, h) := malloc h in
    if negb value_ok then Done (None, h) else
    Done (Some (Node (Some key) value_p), h)
  end.

(** The [while] loop of [add_label] together with the code after it,
    started at [index_p]; [first] tells that [index_p] is still the first
    node, where [prev_p == index_p].  The result is the status, the chain
    from [index_p] on as the call leaves it, and the allocator. *)
Fixpoint add_label_walk (key : string) (value : cstr) (first : bool)
    (index_p : list tmp_list_t) (h : allocator)
  : outcome (Z * list tmp_list_t * allocator) :=
  match index_p with
  | [] =>
    (* index_p == NULL: leave the loop, link the new node after prev_p *)
    '(node_p, h) ← create_list_node (Some key) value h;
    match node_p with
    | None => Done (0, [], h)
    | Some node => Done (0, [node], h)
    end
  | n :: rest =>
    match key_p n with
    | None =>
      (* index_p->key_p == NULL: leave the loop with prev_p behind index_p,
         or on it when it is the first node *)
      '(node_p, h) ← create_list_node (Some key) value h;
      match node_p with
      | None => Done (0, n :: rest, h)
      | Some node => Done (0, if first then [n; node] else [node], h)
      end
    | Some k =>
      if String.eqb k key then
        match value_p n with
        | None =>
          _ ← strlen value;
          let '(ok, h) := malloc h in
          if negb ok then Done (1, n :: rest, h)
          else Done (0, Node (key_p n) value :: rest, h)
        | Some _ => Done (0, n :: rest, h)
        end
      else
        '(rc, rest', h) ← add_label_walk key value false rest h;
        Done (rc, n :: rest', h)
    end
  end.

(** [add_label]: the status (0 success, 1 failure), the list as the call
    leaves it, and the allocator. *)
Definition add_label (key_p value_p : cstr) (list_head_p : list_container_t)
    (h : allocator) : outcome (Z * list_container_t * allocator) :=
  match key_p with
  | None => Done (1, list_head_p, h)
  | Some key =>
    match list_head_p with
    | [] =>
      let node_p : option tmp_list_t := None in
      (* list_head_p->next_p = node_p *)
      Done (0, match node_p with None => [] | Some n => [n] end, h)
    | _ :: _ => add_label_walk key value_p true list_head_p h
    end
  end.

(** A run of inserts, each on the list the previous one left, given up
    at the first failure status: the shape of the token loop of
    [tokenize_extra_fields] and of the label loop of
    [metadata_parse_callback]. *)
Fixpoint add_labels (pairs : list (cstr * cstr))
    (list_head_p : list_container_t) (h : allocator)
  : outcome (list_container_t * allocator) :=
  match pairs with
  | [] => Done (list_head_p, h)
  | (key_p, value_p) :: pairs' =>
    '(rc, list_head_p, h) ← add_label key_p value_p list_head_p h;
    if decide (rc = 0) then add_labels pairs' list_head_p h
    else Done (list_head_p, h)
  end.

(** ** Conditions on allocators and lists, and the specification's insert *)

(** No allocation of the script fails. *)
Definition all_succeed (h : allocator) : Prop := Forall (λ ok, ok = true) h.

(** Every node carries a key, as every node built by [create_list_node]
    does. *)
Definition keyed (l : list tmp_list_t) : Prop :=
  Forall (λ n, is_Some (key_p n)) l.

(** The key is not among the nodes. *)
Definition fresh (key : string) (l : list tmp_list_t) : Prop :=
  Forall (λ n, key_p n ≠ Some key) l.

(** The result of insert as the specification words it: among the
    successful calls the result tells the ones that changed the store from
    the ones that did not. *)
Definition result_reports_change : Prop :=
  ∀ key1 value1 l1 h1 rc1 l1' h1' key2 value2 l2 h2 rc2 l2' h2',
    add_label key1 value1 l1 h1 = Done (rc1, l1', h1') →
    add_label key2 value2 l2 h2 = Done (rc2, l2', h2') →
    all_succeed h1 → all_succeed h2 → is_Some key1 → is_Some key2 →
    l1' = l1 → l2' ≠ l2 → rc1 ≠ rc2.

(** ** The converter and the write queue *)

(** Modelled from the spec: the input sample, [value_list_t] of [plugin.h],
    with the fields the tests initialise. *)
Record value_list_t := ValueList {
  values : list value_t;
  vl_time : Z;
  vl_interval : Z;
  vl_host : string;
  vl_plugin : string;
  vl_type : string
}.

(** Modelled from the spec: the two ways a conversion is refused. *)
Inductive convert_error :=
| SchemaNotFound
| ValueCountMismatch.

(** The label [threshold_search] reads the host from. *)
Definition threshold_host_label : string := "__host__".

Section Pipeline.

(** The type database: the ordered data sources of a type name, if the
    type is known. *)
Variable lookup_schema : string → option (list data_source_t).

(** Modelled from the spec: [plugin.c] is not among the sources
    covered here.  The name of the identity of one value slot is
    [<plugin>/<type>/<data source>] when the type has more than one data
    source and [<plugin>/<type>] otherwise. *)
Definition identity_name (vl : value_list_t) (schema : list data_source_t)
    (d : data_source_t) : string :=
  if decide (1 < List.length schema)%nat
  then vl_plugin vl +:+ "/" +:+ vl_type vl +:+ "/" +:+ ds_name d
  else vl_plugin vl +:+ "/" +:+ vl_type vl.

(** Modelled from the spec: the metric built for one value slot.  The
    identity starts with an empty label store and receives the host under
    the label "_host", where the test of the converter reads it back with
    [c_avl_get (index_p->metric.identity->root_p, "_host", &host_p)];
    data source, kind, value, timestamp, interval and type are taken from
    the schema entry and the sample. *)
Definition convert_slot (vl : value_list_t) (schema : list data_source_t)
    (d : data_source_t) (v : value_t) : metric_t :=
  {| value := v;
     value_ds_type := ds_type d;
     plugin := vl_plugin vl;
     type := vl_type vl;
     ds := d;
     time := vl_time vl;
     interval := vl_interval vl;
     meta := None;
     identity :=
       Identity (identity_name vl schema d)
                (c_avl_insert ∅ "_host" (Some (vl_host vl))) |}.

(** Modelled from the spec: [plugin_convert_values_to_metrics] of
    [plugin.c], one metric per value slot in schema order, or no metric
    at all when the type is unknown or the number of values differs from
    the number of data sources.  Allocation is taken to succeed. *)
Definition plugin_convert_values_to_metrics (vl : value_list_t)
  : convert_error + list metric_t :=
  match lookup_schema (vl_type vl) with
  | None => inl SchemaNotFound
  | Some schema =>
    if decide (List.length (values vl) = List.length schema)
    then inr (zip_with (convert_slot vl schema) schema (values vl))
    else inl ValueCountMismatch
  end.

(** Modelled from the spec: the process-wide queue of [plugin.c], the
    metrics waiting, head first, and the shutdown flag. *)
Record write_queue := WriteQueue {
  items : list metric_t;
  shutdown : bool
}.

(** Modelled from the spec: one metric is linked at the tail. *)
Definition plugin_write_enqueue (q : write_queue) (m : metric_t)
  : write_queue :=
  WriteQueue (items q ++ [m]) (shutdown q).

(** Modelled from the spec: [plugin_dispatch_values] of [plugin.c] runs
    the converter and enqueues every resulting metric, one at a time;
    nothing is enqueued when the conversion fails. *)
Definition plugin_dispatch_values (vl : value_list_t) (q : write_queue)
  : convert_error + write_queue :=
  match plugin_convert_values_to_metrics vl with
  | inl e => inl e
  | inr ml => inr (foldl plugin_write_enqueue q ml)
  end.

(** Modelled from the spec: what a call of dequeue comes to, a metric and
    the queue without it, the end of the stream, or a wait. *)
Inductive dequeued :=
| Dequeued (m : metric_t) (q : write_queue)
| EndOfStream
| Blocked.

(** Modelled from the spec: [plugin_write_dequeue] of [plugin.c] removes
    and returns the head; on an empty queue it reports the end of the
    stream once shutdown is signalled and otherwise waits. *)
Definition plugin_write_dequeue (q : write_queue) : dequeued :=
  match items q with
  | m :: rest => Dequeued m (WriteQueue rest (shutdown q))
  | [] => if shutdown q then EndOfStream else Blocked
  end.

(** [n] successive calls of [plugin_write_dequeue]: the metrics handed
    out, in the order of the calls, and the queue left. *)
Fixpoint dequeue_n (n : nat) (q : write_queue)
  : list metric_t * write_queue :=
  match n with
  | O => ([], q)
  | S n' =>
    match plugin_write_dequeue q with
    | Dequeued m q' =>
      let '(ms, q'') := dequeue_n n' q' in (m :: ms, q'')
    | _ => ([], q)
    end
  end.

(** The first half of the queue property as the specification words it,
    for every dispatched sample: one dequeue after the dispatch hands
    out a metric with the timestamp and interval of the sample. *)
Definition dispatch_then_dequeue : Prop :=
  ∀ vl q q',
    plugin_dispatch_values vl q = inr q' →
    ∃ m q'', plugin_write_dequeue q' = Dequeued m q''
             ∧ time m = vl_time vl ∧ interval m = vl_interval vl.

End Pipeline.

(** ** Data of the tests *)

(** The fixed-point time stamps of the tests,
    [TIME_T_TO_CDTIME_T_STATIC (t)]: seconds in units of 2^-30 s.  The
    properties below only need the stamps to be copied unchanged. *)
Definition TIME_T_TO_CDTIME_T_STATIC (t : Z) : Z := Z.shiftl t 30.

(** The entries of the type database the tests rely on. *)
Definition types_db (type : string) : option (list data_source_t) :=
  if decide (type = "if_octets") then
    Some [DataSource "rx" DS_TYPE_DERIVE; DataSource "tx" DS_TYPE_DERIVE]
  else if decide (type = "load") then
    Some [DataSource "shortterm" DS_TYPE_GAUGE;
          DataSource "midterm" DS_TYPE_GAUGE;
          DataSource "longterm" DS_TYPE_GAUGE]
  else if decide (type = "uptime") then
    Some [DataSource "value" DS_TYPE_GAUGE]
  else None.

(** The two samples of [DEF_TEST(convert)] and [DEF_TEST(queue)]. *)
Definition network_sample : value_list_t :=
  {| values := [derive 120; derive 19];
     vl_time := TIME_T_TO_CDTIME_T_STATIC 1480063672;
     vl_interval := TIME_T_TO_CDTIME_T_STATIC 10;
     vl_host := "example.com";
     vl_plugin := "interface";
     vl_type := "if_octets" |}.

Definition load_sample : value_list_t :=
  {| values := [gauge 0x3FF0000000000000; gauge 0x4022000000000000;
                gauge 0x4033000000000000];
     vl_time := TIME_T_TO_CDTIME_T_STATIC 1480063672;
     vl_interval := TIME_T_TO_CDTIME_T_STATIC 10;
     vl_host := "example1.com";
     vl_plugin := "load";
     vl_type := "load" |}.

(** The second sample taken ten seconds later. *)
Definition later_load_sample : value_list_t :=
  {| values := values load_sample;
     vl_time := TIME_T_TO_CDTIME_T_STATIC 1480063682;
     vl_interval := vl_interval load_sample;
     vl_host := vl_host load_sample;
     vl_plugin := vl_plugin load_sample;
     vl_type := vl_type load_sample |}.

(** The queue after [plugin_init_ctx]. *)
Definition empty_queue : write_queue := WriteQueue [] false.

(** Two threshold records, the second chained behind the first, and a
    registry that holds them under (h, p, t, d) and under the fully generic
    key of type t. *)
Definition generic_threshold : threshold_t :=
  Threshold "" "" "t" "" 0 0 0 0 0 0 0 None.

Definition specific_threshold : threshold_t :=
  Threshold "h" "p" "t" "d" 0 0 0 0 0 0 0 (Some generic_threshold).

Definition registry : world :=
  World (<["h/p/t/d" := specific_threshold]>
           (<["//t/" := generic_threshold]> ∅)) [].

(** A metric with the label [threshold_search] reads, and one without. *)
Definition labelled_metric (host plugin type data_source : string)
  : metric_t :=
  {| value := gauge 0; value_ds_type := DS_TYPE_GAUGE;
     plugin := plugin; type := type;
     ds := DataSource data_source DS_TYPE_GAUGE;
     time := 0; interval := 0; meta := None;
     identity := Identity (plugin +:+ "/" +:+ type)
                          {[ threshold_host_label := Some host ]} |}.

Definition unlabelled_metric : metric_t :=
  {| value := gauge 0; value_ds_type := DS_TYPE_GAUGE;
     plugin := "p"; type := "t";
     ds := DataSource "d" DS_TYPE_GAUGE;
     time := 0; interval := 0; meta := None;
     identity := Identity "p/t" ∅ |}.

(** ** Names without a separator *)

(** No character of [s] is the separator [/] of the registry keys. *)
Fixpoint slash_free (s : string) : bool :=
  match s with
  | EmptyString => true
  | String c s' => negb (Ascii.eqb c "/") && slash_free s'
  end.

(** The keys a search looks up, read off the trace it leaves. *)
Definition probes_of (tr : list event) : list string :=
  omap (λ e, match e with EvGet name => Some name | _ => None end) tr.

(** ** The effects of an insert *)

(** The three things a call can do to a list in which every node has a
    key: nothing, fill the first node of that key, or append. *)
Inductive add_label_effect (key : string) (value : cstr)
    (l : list tmp_list_t) : list tmp_list_t → Prop :=
| effect_none : add_label_effect key value l l
| effect_fill pre n post v :
    l = pre ++ n :: post → fresh key pre →
    key_p n = Some key → value_p n = None → value = Some v →
    add_label_effect key value l (pre ++ Node (Some key) (Some v) :: post)
| effect_append v :
    fresh key l → value = Some v →
    add_label_effect key value l (l ++ [Node (Some key) (Some v)]).

(** ** The rest of [gcp_metadata.c]: tokens, handle and callbacks *)

(** [strtok_r] with the delimiter [","]: leading delimiters are skipped,
    the token runs up to the next delimiter, and the scan resumes behind
    it. *)
Fixpoint skip_delim (s : string) : string :=
  match s with
  | String c s' => if Ascii.eqb c "," then skip_delim s' else s
  | EmptyString => EmptyString
  end.

Fixpoint span_token (s : string) : string * string :=
  match s with
  | String c s' =>
    if Ascii.eqb c "," then (EmptyString, s')
    else let '(token, rest) := span_token s' in (String c token, rest)
  | EmptyString => (EmptyString, EmptyString)
  end.

(** One call: the token and the text left for the next call, or [NULL]. *)
Definition strtok_r (s : string) : option (string * string) :=
  match skip_delim s with
  | EmptyString => None
  | s' => Some (span_token s')
  end.

(** All the tokens the calls of [strtok_r] hand out until it returns
    [NULL]; [token] holds the characters of the token under way. *)
Fixpoint strtok_from (token : string) (s : string) : list string :=
  match s with
  | EmptyString => if decide (token = "") then [] else [token]
  | String c s' =>
    if Ascii.eqb c "," then
      if decide (token = "") then strtok_from "" s'
      else token :: strtok_from "" s'
    else strtok_from (token +:+ String c "") s'
  end.

Definition strtok_tokens (s : string) : list string := strtok_from "" s.

(** The [for (;;)] loop of [tokenize_extra_fields]: every token is added
    with a null value; the first failing [add_label] ends the function
    with 1. *)
Fixpoint tokenize_loop (tokens : list string)
    (list_head_p : list_container_t) (h : allocator)
  : outcome (Z * list_container_t * allocator) :=
  match tokens with
  | [] => Done (0, list_head_p, h)
  | token :: tokens' =>
    '(rc, list_head_p, h) ← add_label (Some token) None list_head_p h;
    if decide (rc = 0) then tokenize_loop tokens' list_head_p h
    else Done (1, list_head_p, h)
  end.

(** [tokenize_extra_fields], on the label list of the handle: the value
    is copied ([strlen], [malloc], [strcpy]) and cut into tokens. *)
Definition tokenize_extra_fields (value : cstr)
    (list_head_p : list_container_t) (h : allocator)
  : outcome (Z * list_container_t * allocator) :=
  match value with
  | None => Fault                            (* strlen (value) *)
  | Some value =>
    let '(ok, h) := malloc h in
    if negb ok then Done (1, list_head_p, h)
    else tokenize_loop (strtok_tokens value) list_head_p h
  end.

(** [cleanup_list]: every node and its strings are released and the
    header is reset. *)
Definition cleanup_list (list_head_p : list_container_t)
  : list_container_t :=
  match list_head_p with
  | [] => []
  | _ :: _ => []
  end.

(** What [gcp_metadata_init] sets on the connection handle. *)
Inductive curl_option :=
| CURLOPT_URL (url : string)
| CURLOPT_FOLLOWLOCATION (onoff : Z)
| CURLOPT_HTTPHEADER (headers : list string)
| CURLOPT_WRITEFUNCTION
| CURLOPT_WRITEDATA.

(** [metadata_t] *)
Record metadata_t := Metadata {
  md_data : cstr;
  md_size : Z
}.

(** [gcp_metadata_handle_t]; a connection handle is the list of options
    set on it, the [lock] is followed through the events below. *)
Record gcp_metadata_handle_t := Handle {
  curl_p : option (list curl_option);
  headers : option (list string);
  label_list : list_container_t;
  parsed_data : metadata_t
}.

Definition METADATA_URL : string :=
  "http://metadata.google.internal/computeMetadata/v1/".
Definition INSTANCE_METADATA : string :=
  "instance/attributes/?recursive=true".
Definition INSTANCE_METADATA_URL : string :=
  METADATA_URL +:+ INSTANCE_METADATA.

Definition CURLE_OK : Z := 0.

(** What the callbacks do to their surroundings. *)
Inductive plugin_event :=
| PthreadSetcancelstate (enable : bool)
| HandleLock
| HandleUnlock
| CurlEasyCleanup
| CurlSlistFreeAll
| MetaDataCreate
| MetaDataAddString (key value : string)
| MetaDataDestroy
| PluginDispatchValues (vl : value_list_t).

(** The static [gcp_metadata_handle], the allocator and the events so
    far. *)
Record plugin_world := PluginWorld {
  gcp_metadata_handle : gcp_metadata_handle_t;
  heap : allocator;
  events : list plugin_event
}.

Definition P (A : Type) : Type := plugin_world → outcome (A * plugin_world).

#[export] Instance P_ret : MRet P := λ A (a : A) s, Done (a, s).
#[export] Instance P_bind : MBind P :=
  λ A B (f : A → P B) (m : P A) s,
    match m s with
    | Fault => Fault
    | Done (a, s') => f a s'
    end.

Definition record_event (e : plugin_event) : P unit :=
  λ s, Done (tt, PluginWorld (gcp_metadata_handle s) (heap s)
                             (events s ++ [e])).

Definition get_handle : P gcp_metadata_handle_t :=
  λ s, Done (gcp_metadata_handle s, s).

Definition set_handle (hd : gcp_metadata_handle_t) : P unit :=
  λ s, Done (tt, PluginWorld hd (heap s) (events s)).

(** A function of the label list and the allocator, run on the list of
    the handle. *)
Definition on_label_list {A}
    (f : list_container_t → allocator
         → outcome (A * list_container_t * allocator)) : P A :=
  λ s,
    let hd := gcp_metadata_handle s in
    '(a, l, h) ← f (label_list hd) (heap s);
    Done (a, PluginWorld (Handle (curl_p hd) (headers hd) l (parsed_data hd))
                         h (events s)).

(** [gcp_metadata_cleanup] *)
Definition gcp_metadata_cleanup : P unit :=
  hd ← get_handle;
  match curl_p hd with
  | Some _ =>
    record_event CurlEasyCleanup;;
    match headers hd with
    | Some _ =>
      record_event CurlSlistFreeAll;;
      set_handle (Handle None None (cleanup_list (label_list hd))
                         (parsed_data hd))
    | None =>
      set_handle (Handle None (headers hd) (cleanup_list (label_list hd))
                         (parsed_data hd))
    end
  | None => mret tt
  end.

Definition pthread_setcancelstate (enable : bool) : P unit :=
  record_event (PthreadSetcancelstate enable).

(** [gcp_metadata_init]; the two arguments tell whether [curl_easy_init]
    and [curl_slist_append] hand out an object. *)
Definition gcp_metadata_init (curl_easy_init curl_slist_append : bool)
  : P Z :=
  pthread_setcancelstate false;;
  record_event HandleLock;;
  hd ← get_handle;
  failed ←
    match curl_p hd with
    | None =>
      if curl_easy_init then
        if curl_slist_append then
          let hs := ["Metadata-Flavor: Google"] in
          set_handle
            (Handle (Some [CURLOPT_URL INSTANCE_METADATA_URL;
                           CURLOPT_FOLLOWLOCATION 1;
                           CURLOPT_HTTPHEADER hs;
                           CURLOPT_WRITEFUNCTION;
                           CURLOPT_WRITEDATA])
                    (Some hs) (label_list hd) (Metadata None 0));;
          mret false
        else
          set_handle (Handle (Some []) None (label_list hd)
                             (parsed_data hd));;
          gcp_metadata_cleanup;;
          mret true
      else mret false
    | Some _ => mret false
    end;
  record_event HandleUnlock;;
  pthread_setcancelstate true;;
  mret (if failed : bool then 1 else 0).

(** [gcp_metadata_config] *)
Definition gcp_metadata_config (key value : cstr) : P Z :=
  match value, key with
  | None, _ => mret (-1)
  | Some _, None => mret (-1)
  | Some _, Some k =>
    if negb (String.eqb k "ExtraMetricFields") then mret (-1)
    else
      pthread_setcancelstate false;;
      record_event HandleLock;;
      _ ← on_label_list (tokenize_extra_fields value);
      record_event HandleUnlock;;
      pthread_setcancelstate true;;
      mret 0
  end.

(** [gcp_metadata_shutdown] *)
Definition gcp_metadata_shutdown : P Z :=
  pthread_setcancelstate false;;
  record_event HandleLock;;
  gcp_metadata_cleanup;;
  record_event HandleUnlock;;
  pthread_setcancelstate true;;
  mret 0.

Section GcpMetadata.

(** The size of the name fields of a value list. *)
Variable DATA_MAX_NAME_LEN : nat.

(** The status of a call of [meta_data_add_string], which may depend on
    everything that happened before. *)
Variable meta_data_add_string : list plugin_event → string → string → Z.

(** [curl_easy_perform] on the handle: its result code, and what the
    write callback it drives did to the label list and the allocator. *)
Variable curl_easy_perform :
  option (list curl_option) → list_container_t → allocator
  → outcome (Z * list_container_t * allocator).

(** [strncpy (dst, src, sizeof (dst))] into a name field. *)
Definition strncpy_name (src : string) : string :=
  str_take DATA_MAX_NAME_LEN src.

(** The value list [gcp_metadata_submit] fills in: [VALUE_LIST_INIT], one
    gauge of 1.5, plugin and type. *)
Definition submitted_value_list : value_list_t :=
  {| values := [gauge 0x3FF8000000000000];
     vl_time := 0;
     vl_interval := 0;
     vl_host := "";
     vl_plugin := strncpy_name "metadata";
     vl_type := strncpy_name "gauge" |}.

(** The [while] loop of [gcp_metadata_submit]; the result tells whether
    an addition failed, after which the meta data is destroyed. *)
Fixpoint submit_labels (leader_p : list tmp_list_t) : P bool :=
  match leader_p with
  | [] => mret false
  | node :: next_p =>
    match key_p node, value_p node with
    | Some key, Some value =>
      status ← (λ s, Done (meta_data_add_string (events s) key value, s));
      record_event (MetaDataAddString key value);;
      if decide (status < 0) then
        record_event MetaDataDestroy;;
        mret true
      else submit_labels next_p
    | _, _ => submit_labels next_p
    end
  end.

(** [gcp_metadata_submit], called on the label list of the handle. *)
Definition gcp_metadata_submit : P Z :=
  record_event MetaDataCreate;;
  hd ← get_handle;
  failed ←
    match label_list hd with
    | [] => mret false
    | _ :: _ =>
      failed ← submit_labels (label_list hd);
      if failed : bool then mret true
      else
        set_handle (Handle (curl_p hd) (headers hd)
                           (cleanup_list (label_list hd)) (parsed_data hd));;
        mret false
    end;
  if failed : bool then mret 1
  else
    record_event (PluginDispatchValues submitted_value_list);;
    record_event MetaDataDestroy;;
    mret 0.

(** [gcp_metadata_read] *)
Definition gcp_metadata_read : P Z :=
  pthread_setcancelstate false;;
  record_event HandleLock;;
  hd ← get_handle;
  res ← on_label_list (curl_easy_perform (curl_p hd));
  if decide (res ≠ CURLE_OK) then
    gcp_metadata_cleanup;;
    record_event HandleUnlock;;
    pthread_setcancelstate true;;
    mret res
  else
    rc ← gcp_metadata_submit;
    if decide (rc ≠ 0) then
      record_event HandleUnlock;;
      pthread_setcancelstate true;;
      mret 1
    else
      record_event HandleUnlock;;
      pthread_setcancelstate true;;
      mret 0.

End GcpMetadata.

(** The events of a run that concern the lock and the cancel state. *)
Definition is_lock_event (e : plugin_event) : bool :=
  match e with
  | PthreadSetcancelstate _ | HandleLock | HandleUnlock => true
  | _ => false
  end.

Definition lock_events (es : list plugin_event) : list plugin_event :=
  List.filter is_lock_event es.

(** The handle and world the plugin starts from. *)
Definition initial_handle : gcp_metadata_handle_t :=
  Handle None None [] (Metadata None 0).

Definition initial_world (h : allocator) : plugin_world :=
  PluginWorld initial_handle h [].

(** The labels [gcp_metadata_submit] hands to [meta_data_add_string]:
    the nodes that have both a key and a value, in list order. *)
Definition label_pairs (l : list tmp_list_t) : list (string * string) :=
  omap (λ n, match key_p n, value_p n with
             | Some key, Some value => Some (key, value)
             | _, _ => None
             end) l.

(** The value lists dispatched among the events. *)
Definition dispatches (es : list plugin_event) : list value_list_t :=
  omap (λ e, match e with
             | PluginDispatchValues vl => Some vl
             | _ => None
             end) es.

(** The lock and cancel-state events of a callback that takes the lock. *)
Definition locked_section : list plugin_event :=
  [PthreadSetcancelstate false; HandleLock;
   HandleUnlock; PthreadSetcancelstate true].

(** The calls of [meta_data_add_string] for a list of labels. *)
Definition add_events (adds : list (string * string)) : list plugin_event :=
  (λ kv, MetaDataAddString kv.1 kv.2) <$> adds.

(** The labels [pairs], handed one after the other to
    [meta_data_add_string] after the events [es], are all taken: no call
    answers a negative status. *)
Definition all_accepted
    (meta_data_add_string : list plugin_event → string → string → Z)
    (es : list plugin_event) (pairs : list (string * string)) : Prop :=
  ∀ pre k v post,
    pairs = pre ++ (k, v) :: post →
    0 ≤ meta_data_add_string (es ++ add_events pre) k v.

(** After the labels [pre] were taken, the label of key [k] and value [v]
    is refused. *)
Definition refused_after
    (meta_data_add_string : list plugin_event → string → string → Z)
    (es : list plugin_event) (pre : list (string * string))
    (k v : string) : Prop :=
  all_accepted meta_data_add_string es pre
  ∧ meta_data_add_string (es ++ add_events pre) k v < 0.

(** ** Data for the instances of Part III *)

(** A registry that extends [registry] by a record under a key of its
    own. *)
Definition wider_registry : gmap string threshold_t :=
  <["other/x/t/y" := specific_threshold]> (threshold_tree registry).

(** A started label list: one label with its value, one still without. *)
Definition zone_labels : list_container_t :=
  [Node (Some "zone") (Some "europe"); Node (Some "name") None].

(** [meta_data_add_string] never failing, and failing on the key name. *)
Definition add_string_ok (es : list plugin_event) (key value : string) : Z :=
  0.

Definition add_string_refuses_name (es : list plugin_event)
    (key value : string) : Z :=
  if String.eqb key "name" then -22 else 0.

(** A transfer that succeeds on a connection handle, 0 being [CURLE_OK],
    and fails without one, and in both cases leaves labels and allocator
    as they are. *)
Definition transfer_quiet (curl : option (list curl_option))
    (l : list_container_t) (h : allocator)
  : outcome (Z * list_container_t * allocator) :=
  Done (match curl with Some _ => 0 | None => 43 end, l, h).

(** The world after a successful [gcp_metadata_init], with labels. *)
Definition ready_world : plugin_world :=
  PluginWorld
    (Handle (Some [CURLOPT_URL INSTANCE_METADATA_URL;
                   CURLOPT_FOLLOWLOCATION 1;
                   CURLOPT_HTTPHEADER ["Metadata-Flavor: Google"];
                   CURLOPT_WRITEFUNCTION; CURLOPT_WRITEDATA])
            (Some ["Metadata-Flavor: Google"])
            [Node (Some "zone") (Some "europe");
             Node (Some "name") (Some "vm")]
            (Metadata None 0))
    [] [].

(** * Part II. Properties *)

(** ** Strings *)

Lemma str_take_length n s : (String.length (str_take n s) ≤ n)%nat.
Proof.
  revert s; induction n as [|n IH]; intros [|c s]; simpl; try lia.
  specialize (IH s); lia.
Qed.

Lemma str_take_all n s : (String.length s ≤ n)%nat → str_take n s = s.
Proof.
  revert n; induction s as [|c s IH]; intros [|n] Hle; simpl in *;
    try reflexivity; try lia.
  f_equal; apply IH; lia.
Qed.

Lemma str_repeat_length c n : String.length (str_repeat c n) = n.
Proof. induction n as [|n IH]; simpl; [reflexivity | by rewrite IH]. Qed.

Lemma str_app_length s t :
  String.length (s +:+ t) = (String.length s + String.length t)%nat.
Proof. induction s as [|c s IH]; simpl; [reflexivity | by rewrite IH]. Qed.

(** ** The threshold registry *)

Section ThresholdProperties.

Variable DATA_MAX_NAME_LEN : nat.

Lemma threshold_get_run h pl ty d w :
  threshold_get DATA_MAX_NAME_LEN h pl ty d w =
  (threshold_tree w !! name_buffer DATA_MAX_NAME_LEN h pl ty d,
   World (threshold_tree w)
         (trace w ++ [EvGet (name_buffer DATA_MAX_NAME_LEN h pl ty d)])).
Proof. reflexivity. Qed.

Lemma probe_in_order_run probes w :
  probe_in_order DATA_MAX_NAME_LEN probes w =
  (head (omap (λ p, threshold_tree w !! probe_key DATA_MAX_NAME_LEN p)
              probes),
   World (threshold_tree w)
         (trace w ++
          (EvGet <$> probed (threshold_tree w)
                            (probe_key DATA_MAX_NAME_LEN <$> probes)))).
Proof.
  destruct w as [tree tr]; revert tr.
  induction probes as [|[[[h pl] ty] d] probes IH]; intros tr; simpl.
  - by rewrite app_nil_r.
  - unfold mbind, M_bind; rewrite threshold_get_run; simpl.
    destruct (tree !! name_buffer DATA_MAX_NAME_LEN h pl ty d)
      as [t|] eqn:Hget; simpl.
    + reflexivity.
    + rewrite IH; simpl. by rewrite <- app_assoc.
Qed.

Lemma bind_get_run {B} h pl ty d (k : option threshold_t → M B) w :
  (th ← threshold_get DATA_MAX_NAME_LEN h pl ty d; k th) w =
  k (threshold_tree w !! name_buffer DATA_MAX_NAME_LEN h pl ty d)
    (World (threshold_tree w)
           (trace w ++ [EvGet (name_buffer DATA_MAX_NAME_LEN h pl ty d)])).
Proof. reflexivity. Qed.

Lemma threshold_get_null_data_source h pl ty :
  threshold_get DATA_MAX_NAME_LEN h pl ty None
  = threshold_get DATA_MAX_NAME_LEN h pl ty (Some "").
Proof. reflexivity. Qed.

(** One link of the [if ... else if] chain: run the probe and split on
    its result. *)
Ltac probe_step :=
  rewrite !bind_get_run; cbn [threshold_tree trace];
  match goal with
  | |- context [match ?t !! ?k with _ => _ end] => destruct (t !! k) eqn:?
  end.

Lemma threshold_search_probes m host_p w :
  root_p (identity m) !! "__host__" = Some host_p →
  threshold_search DATA_MAX_NAME_LEN (Some m) w =
  probe_in_order DATA_MAX_NAME_LEN
    (cascade host_p (plugin m) (type m) (ds_name (ds m))) w.
Proof.
  intros Hhost. unfold threshold_search, c_avl_get. rewrite Hhost.
  unfold cascade, probe_in_order. cbv zeta.
  rewrite !threshold_get_null_data_source.
  do 7 (probe_step; [reflexivity|]).
  probe_step; reflexivity.
Qed.

Lemma threshold_search_unlabelled m w :
  root_p (identity m) !! "__host__" = None →
  threshold_search DATA_MAX_NAME_LEN (Some m) w = (None, w).
Proof.
  intros Hhost. unfold threshold_search, c_avl_get. by rewrite Hhost.
Qed.

Lemma threshold_search_tree metric_p w :
  threshold_tree (threshold_search DATA_MAX_NAME_LEN metric_p w).2
  = threshold_tree w.
Proof.
  destruct metric_p as [m|]; [|reflexivity].
  destruct (root_p (identity m) !! "__host__") as [host_p|] eqn:Hhost.
  - by rewrite (threshold_search_probes m host_p), probe_in_order_run.
  - by rewrite threshold_search_unlabelled.
Qed.

(** What [ut_search_threshold] does with the result of the search made
    under the lock. *)
Lemma ut_search_threshold_run m ret_threshold w :
  let locked := World (threshold_tree w) (trace w ++ [EvLock]) in
  let searched := threshold_search DATA_MAX_NAME_LEN (Some m) locked in
  ut_search_threshold DATA_MAX_NAME_LEN (Some m) ret_threshold w =
  (match searched.1 with
   | None => (ENOENT, ret_threshold)
   | Some t => (0, clear_next t)
   end,
   World (threshold_tree w) (trace searched.2 ++ [EvUnlock])).
Proof.
  intros locked searched.
  assert (Htree : threshold_tree searched.2 = threshold_tree w)
    by exact (threshold_search_tree (Some m) locked).
  unfold ut_search_threshold, pthread_mutex_lock, pthread_mutex_unlock.
  unfold mbind, M_bind, emit. cbv beta iota. cbn [threshold_tree trace].
  fold locked. fold searched.
  destruct searched as [[t|] w']; cbn [fst snd] in *; by rewrite Htree.
Qed.

(** C10: the exact lookup treats a null argument as the empty-string
    wildcard, for each of its four arguments. *)
Theorem threshold_get_null_is_wildcard
    (hostname plugin type data_source : cstr) :
  threshold_get DATA_MAX_NAME_LEN None plugin type data_source
    = threshold_get DATA_MAX_NAME_LEN (Some "") plugin type data_source
  ∧ threshold_get DATA_MAX_NAME_LEN hostname None type data_source
    = threshold_get DATA_MAX_NAME_LEN hostname (Some "") type data_source
  ∧ threshold_get DATA_MAX_NAME_LEN hostname plugin None data_source
    = threshold_get DATA_MAX_NAME_LEN hostname plugin (Some "") data_source
  ∧ threshold_get DATA_MAX_NAME_LEN hostname plugin type None
    = threshold_get DATA_MAX_NAME_LEN hostname plugin type (Some "").
Proof. repeat split; reflexivity. Qed.

(** C6, amended: the exact lookup formats host/plugin/type/data_source
    with empty or null segments as empty strings, keeps the first
    [5 * DATA_MAX_NAME_LEN - 1] characters, and returns the record stored
    under that key if there is one and nothing otherwise; when the
    formatted text is shorter than the buffer the key is the literal
    concatenation. *)
Theorem threshold_get_key (hostname plugin type data_source : cstr) w :
  let literal :=
    or_empty hostname +:+ "/" +:+ or_empty plugin +:+ "/" +:+
    or_empty type +:+ "/" +:+ or_empty data_source in
  let found :=
    (threshold_get DATA_MAX_NAME_LEN hostname plugin type data_source w).1 in
  found = threshold_tree w !! str_take (5 * DATA_MAX_NAME_LEN - 1) literal
  ∧ ((String.length literal < 5 * DATA_MAX_NAME_LEN)%nat →
     found = threshold_tree w !! literal).
Proof.
  intros literal found. subst found. rewrite threshold_get_run; simpl.
  split; [reflexivity|].
  intros Hlen. unfold name_buffer, format_name.
  fold literal. rewrite str_take_all; [reflexivity | lia].
Qed.

(** C1: for a metric whose identity carries the label "__host__", the
    search makes the eight probes of the cascade in the listed order,
    stops at the first record found and returns it, and returns nothing
    when all eight miss. *)
Theorem threshold_search_cascade m host_p w :
  root_p (identity m) !! "__host__" = Some host_p →
  let probes := cascade host_p (plugin m) (type m) (ds_name (ds m)) in
  let searched := threshold_search DATA_MAX_NAME_LEN (Some m) w in
  searched = probe_in_order DATA_MAX_NAME_LEN probes w
  ∧ searched.1
    = head (omap (λ p, threshold_tree w !! probe_key DATA_MAX_NAME_LEN p)
                 probes)
  ∧ trace searched.2
    = trace w ++ (EvGet <$> probed (threshold_tree w)
                                   (probe_key DATA_MAX_NAME_LEN <$> probes)).
Proof.
  intros Hhost probes searched. subst searched.
  rewrite (threshold_search_probes m host_p w Hhost).
  fold probes. rewrite probe_in_order_run. by repeat split.
Qed.

(** C7: a metric whose identity has no "__host__" label is an ordinary
    miss, and the registry is not probed. *)
Theorem threshold_search_no_host_label m w :
  root_p (identity m) !! "__host__" = None →
  threshold_search DATA_MAX_NAME_LEN (Some m) w = (None, w)
  ∧ trace (threshold_search DATA_MAX_NAME_LEN (Some m) w).2 = trace w.
Proof.
  intros Hhost. by rewrite threshold_search_unlabelled.
Qed.

(** C5: [ut_search_threshold] answers a null metric with [EINVAL] and
    leaves the lock alone; otherwise it takes the lock, searches and
    releases the lock, answering [ENOENT] on a miss and, on a hit, 0 with
    a copy of the stored record: each of its eleven fields is the field
    of the record stored in the registry, and its [next] is null. *)
Theorem ut_search_threshold_spec ret_threshold w :
  ut_search_threshold DATA_MAX_NAME_LEN None ret_threshold w
    = ((EINVAL, ret_threshold), w)
  ∧ ∀ m,
      let locked := World (threshold_tree w) (trace w ++ [EvLock]) in
      let searched := threshold_search DATA_MAX_NAME_LEN (Some m) locked in
      let released :=
        World (threshold_tree w) (trace searched.2 ++ [EvUnlock]) in
      (searched.1 = None →
       ut_search_threshold DATA_MAX_NAME_LEN (Some m) ret_threshold w
         = ((ENOENT, ret_threshold), released))
      ∧ (∀ t, searched.1 = Some t →
         ut_search_threshold DATA_MAX_NAME_LEN (Some m) ret_threshold w
           = ((0, Threshold (th_host t) (th_plugin t) (th_type t)
                            (th_data_source t)
                            (warning_min t) (warning_max t)
                            (failure_min t) (failure_max t)
                            (hysteresis t) (flags t) (hits t) None),
              released)
         ∧ ∃ host_p p,
             root_p (identity m) !! "__host__" = Some host_p
             ∧ p ∈ cascade host_p (plugin m) (type m) (ds_name (ds m))
             ∧ threshold_tree w !! probe_key DATA_MAX_NAME_LEN p = Some t).
Proof.
  split; [reflexivity|]. intros m locked searched released.
  pose proof (ut_search_threshold_run m ret_threshold w) as Hut.
  cbv zeta in Hut. fold locked in Hut. fold searched in Hut.
  fold released in Hut.
  split.
  - intros Hnone. by rewrite Hut, Hnone.
  - intros t Hsome. rewrite Hut, Hsome. split; [reflexivity|].
    destruct (root_p (identity m) !! "__host__") as [host_p|] eqn:Hhost.
    + exists host_p. subst searched.
      rewrite (threshold_search_probes m host_p), probe_in_order_run in Hsome
        by done.
      cbn [fst threshold_tree locked] in Hsome.
      apply head_Some_elem_of, list_elem_of_omap in Hsome
        as (p & Hin & Hp).
      eauto.
    + subst searched. rewrite threshold_search_unlabelled in Hsome by done.
      discriminate.
Qed.

End ThresholdProperties.

(** ** The label list *)

Lemma malloc_all_succeed h :
  all_succeed h → ∃ h', malloc h = (true, h') ∧ all_succeed h'.
Proof.
  destruct h as [|ok h]; intros Hall.
  - by exists [].
  - inversion Hall; subst. by exists h.
Qed.

Lemma create_list_node_ok key value h :
  all_succeed h →
  ∃ h', create_list_node (Some key) (Some value) h
        = Done (Some (Node (Some key) (Some value)), h') ∧ all_succeed h'.
Proof.
  intros Hall. unfold create_list_node.
  destruct (malloc_all_succeed h Hall) as (h1 & -> & Hall1); simpl.
  destruct (malloc_all_succeed h1 Hall1) as (h2 & -> & Hall2); simpl.
  destruct (malloc_all_succeed h2 Hall2) as (h3 & -> & Hall3); simpl.
  by exists h3.
Qed.

#[local] Arguments create_list_node : simpl never.

Lemma string_eqb_false (k key : string) :
  Some k ≠ Some key → String.eqb k key = false.
Proof. intros Hne. apply String.eqb_neq. congruence. Qed.

(** First writer wins: a key that already has a value is left alone,
    whatever the new value is. *)
Lemma add_label_walk_existing key value first pre n post h :
  keyed pre → fresh key pre →
  key_p n = Some key → is_Some (value_p n) →
  add_label_walk key value first (pre ++ n :: post) h
  = Done (0, pre ++ n :: post, h).
Proof.
  intros Hkeyed Hfresh Hkey [v Hv]. revert first.
  induction pre as [|p pre IH]; intros first; simpl.
  - rewrite Hkey, String.eqb_refl, Hv. reflexivity.
  - inversion Hkeyed as [|? ? [k Hk] Hkeyed']; subst.
    inversion Hfresh as [|? ? Hne Hfresh']; subst.
    rewrite Hk in Hne |- *. rewrite (string_eqb_false _ _ Hne).
    by rewrite (IH Hkeyed' Hfresh').
Qed.

(** A key registered without a value receives the value. *)
Lemma add_label_walk_fill key value first pre n post h h' :
  keyed pre → fresh key pre →
  key_p n = Some key → value_p n = None → malloc h = (true, h') →
  add_label_walk key (Some value) first (pre ++ n :: post) h
  = Done (0, pre ++ Node (Some key) (Some value) :: post, h').
Proof.
  intros Hkeyed Hfresh Hkey Hv Hm. revert first.
  induction pre as [|p pre IH]; intros first; simpl.
  - rewrite Hkey, String.eqb_refl, Hv; simpl. by rewrite Hm.
  - inversion Hkeyed as [|? ? [k Hk] Hkeyed']; subst.
    inversion Hfresh as [|? ? Hne Hfresh']; subst.
    rewrite Hk in Hne |- *. rewrite (string_eqb_false _ _ Hne).
    by rewrite (IH Hkeyed' Hfresh').
Qed.

(** A new key is linked behind the last node. *)
Lemma add_label_walk_append key value first l h :
  keyed l → fresh key l → all_succeed h →
  ∃ h', add_label_walk key (Some value) first l h
        = Done (0, l ++ [Node (Some key) (Some value)], h')
        ∧ all_succeed h'.
Proof.
  intros Hkeyed Hfresh Hall. revert first.
  induction l as [|p l IH]; intros first; simpl.
  - destruct (create_list_node_ok key value h Hall) as (h' & -> & Hall').
    by exists h'.
  - inversion Hkeyed as [|? ? [k Hk] Hkeyed']; subst.
    inversion Hfresh as [|? ? Hne Hfresh']; subst.
    rewrite Hk in Hne |- *. rewrite (string_eqb_false _ _ Hne).
    destruct (IH Hkeyed' Hfresh' false) as (h' & -> & Hall').
    by exists h'.
Qed.

(** In a list where every node has a key, a key is either fresh or has a
    first occurrence. *)
Lemma keyed_split key l :
  keyed l →
  fresh key l ∨
  ∃ pre n post, l = pre ++ n :: post ∧ keyed pre ∧ fresh key pre
                ∧ key_p n = Some key.
Proof.
  induction l as [|p l IH]; intros Hkeyed.
  - left; constructor.
  - inversion Hkeyed as [|? ? Hp Hkeyed']; subst.
    destruct (decide (key_p p = Some key)) as [Heq|Hne].
    + right. exists [], p, l. repeat split; [constructor | constructor | done].
    + destruct (IH Hkeyed') as [Hfresh|(pre & n & post & -> & Hk & Hf & Hn)].
      * left; by constructor.
      * right. exists (p :: pre), n, post.
        repeat split; [by constructor | by constructor | done].
Qed.

Lemma add_label_walk_status key value first l h rc l' h' :
  add_label_walk key value first l h = Done (rc, l', h') →
  (rc = 0 ∨ rc = 1) ∧ (rc = 1 → l' = l ∧ h = false :: h').
Proof.
  revert first rc l' h'.
  induction l as [|n l IH]; intros first rc l' h'; simpl.
  - destruct (create_list_node _ _ _) as [|[[node|] h1]]; simpl;
      intros [= <- <- <-] || discriminate; split; auto; discriminate.
  - destruct (key_p n) as [k|].
    + destruct (String.eqb k key).
      * destruct (value_p n) as [v|].
        -- intros [= <- <- <-]; split; auto; discriminate.
        -- destruct value as [v|]; simpl; [|discriminate].
           destruct h as [|[] h1]; simpl;
             intros [= <- <- <-]; split; auto; try discriminate.
      * destruct (add_label_walk key value false l h)
          as [|[[rc1 l1] h1]] eqn:Hrec; simpl; [discriminate|].
        intros [= <- <- <-].
        destruct (IH _ _ _ _ Hrec) as [Hrc Hfail]. split; [done|].
        intros Hone. destruct (Hfail Hone) as [-> ->]. done.
    + destruct (create_list_node _ _ _) as [|[[node|] h1]]; simpl;
        intros [= <- <- <-] || discriminate; split; auto; discriminate.
Qed.

Lemma add_label_walk_succeeds key value first l h :
  all_succeed h →
  ∃ l' h', add_label_walk key (Some value) first l h = Done (0, l', h')
           ∧ all_succeed h'.
Proof.
  intros Hall. revert first.
  induction l as [|n l IH]; intros first; simpl.
  - destruct (create_list_node_ok key value h Hall) as (h' & -> & Hall').
    simpl; eauto.
  - destruct (key_p n) as [k|].
    + destruct (String.eqb k key).
      * destruct (value_p n) as [v|]; simpl; [eauto|].
        destruct (malloc_all_succeed h Hall) as (h' & -> & Hall').
        simpl; eauto.
      * destruct (IH false) as (l' & h' & -> & Hall'). simpl; eauto.
    + destruct (create_list_node_ok key value h Hall) as (h' & -> & Hall').
      simpl; eauto.
Qed.

(** On a list that is not empty, [add_label] follows the insertion policy:
    first writer wins, an absent value is filled, a new key is appended. *)
Lemma add_label_existing key value pre n post h :
  keyed pre → fresh key pre →
  key_p n = Some key → is_Some (value_p n) →
  add_label (Some key) value (pre ++ n :: post) h
  = Done (0, pre ++ n :: post, h).
Proof.
  intros Hk Hf Hn Hv. unfold add_label.
  destruct (pre ++ n :: post) as [|x l] eqn:Hl.
  - by destruct pre.
  - rewrite <- Hl. by apply add_label_walk_existing.
Qed.

Lemma add_label_fill key value pre n post h h' :
  keyed pre → fresh key pre →
  key_p n = Some key → value_p n = None → malloc h = (true, h') →
  add_label (Some key) (Some value) (pre ++ n :: post) h
  = Done (0, pre ++ Node (Some key) (Some value) :: post, h').
Proof.
  intros Hk Hf Hn Hv Hm. unfold add_label.
  destruct (pre ++ n :: post) as [|x l] eqn:Hl.
  - by destruct pre.
  - rewrite <- Hl. by apply add_label_walk_fill.
Qed.

Lemma add_label_append key value l h :
  l ≠ [] → keyed l → fresh key l → all_succeed h →
  ∃ h', add_label (Some key) (Some value) l h
        = Done (0, l ++ [Node (Some key) (Some value)], h').
Proof.
  intros Hne Hk Hf Hall. unfold add_label.
  destruct l as [|x l]; [done|].
  destruct (add_label_walk_append key value true (x :: l) h Hk Hf Hall)
    as (h' & Heq & _).
  eauto.
Qed.

(** C3 (defect of the code): on an empty list [add_label] links the
    null [node_p] into the header and reports success; the pair is not
    appended and the list stays empty, whatever key and value are given. *)
Theorem add_label_empty_list key value h :
  add_label (Some key) value [] h = Done (0, [], h).
Proof. reflexivity. Qed.

(** Hence no run of inserts ever gets a list started. *)
Lemma add_labels_empty_list pairs h :
  add_labels pairs [] h = Done ([], h).
Proof.
  induction pairs as [|[[key|] value] pairs IH]; simpl; done.
Qed.

(** C4, amended: called with a key, [add_label] returns the failure
    status 1 only when an allocation it made has failed, and it then
    leaves the list as it was; its status is 0 or 1, and with a value and
    no failing allocation it returns 0.  The status does not tell whether
    the list changed: it is 0 when the key already has a value, the list
    staying as it was, and 0 when the absent value of the key is filled. *)
Theorem add_label_status (key : string) value l h :
  (∀ rc l' h', add_label (Some key) value l h = Done (rc, l', h') →
     (rc = 0 ∨ rc = 1) ∧ (rc = 1 → l' = l ∧ h = false :: h'))
  ∧ (is_Some value → all_succeed h →
     ∃ l' h', add_label (Some key) value l h = Done (0, l', h'))
  ∧ (∀ pre n post,
       l = pre ++ n :: post → keyed pre → fresh key pre →
       key_p n = Some key →
       (is_Some (value_p n) →
        add_label (Some key) value l h = Done (0, l, h))
       ∧ (∀ v h', value_p n = None → value = Some v →
                  malloc h = (true, h') →
                  add_label (Some key) value l h
                  = Done (0, pre ++ Node (Some key) (Some v) :: post, h')
                  ∧ pre ++ Node (Some key) (Some v) :: post ≠ l)).
Proof.
  split; [|split].
  - intros rc l' h'. unfold add_label.
    destruct l as [|n l]; [intros [= <- <- <-]; split; auto; discriminate|].
    apply add_label_walk_status.
  - intros [v ->] Hall. unfold add_label.
    destruct l as [|n l]; [eauto|].
    destruct (add_label_walk_succeeds key v true (n :: l) h Hall)
      as (l' & h' & Heq & _).
    eauto.
  - intros pre n post -> Hk Hf Hn. split.
    + intros Hv. by apply add_label_existing.
    + intros v h' Hv -> Hm. split; [by apply add_label_fill|].
      intros Heq. apply app_inv_head in Heq. injection Heq as <-.
      simpl in Hv. discriminate.
Qed.

(** ** The converter and the write queue *)

Lemma fmap_zip_with_l {A B C D} (g : A → B → C) (f : C → D) (h : A → D)
    (l : list A) (k : list B) :
  (∀ a b, f (g a b) = h a) → List.length k = List.length l →
  f <$> zip_with g l k = h <$> l.
Proof.
  intros Hfg. revert k.
  induction l as [|a l IH]; intros [|b k] Hlen; simpl in *; try done.
  rewrite Hfg, IH by lia. done.
Qed.

Lemma host_label_written host :
  c_avl_insert (∅ : gmap string cstr) "_host" (Some host) !! "_host"
  = Some (Some host).
Proof. unfold c_avl_insert. rewrite lookup_empty. apply lookup_insert_eq. Qed.

Section PipelineProperties.

Variable lookup_schema : string → option (list data_source_t).

Lemma convert_known vl schema :
  lookup_schema (vl_type vl) = Some schema →
  List.length (values vl) = List.length schema →
  plugin_convert_values_to_metrics lookup_schema vl
  = inr (zip_with (convert_slot vl schema) schema (values vl)).
Proof.
  intros Hs Hlen. unfold plugin_convert_values_to_metrics.
  rewrite Hs. by rewrite decide_True.
Qed.

Lemma convert_inr vl ml :
  plugin_convert_values_to_metrics lookup_schema vl = inr ml →
  ∃ schema, lookup_schema (vl_type vl) = Some schema
            ∧ List.length (values vl) = List.length schema
            ∧ ml = zip_with (convert_slot vl schema) schema (values vl).
Proof.
  unfold plugin_convert_values_to_metrics.
  destruct (lookup_schema (vl_type vl)) as [schema|]; [|discriminate].
  case_decide; [|discriminate]. intros [= <-]. eauto.
Qed.

Lemma converted_metric vl ml m :
  plugin_convert_values_to_metrics lookup_schema vl = inr ml → m ∈ ml →
  time m = vl_time vl ∧ interval m = vl_interval vl
  ∧ type m = vl_type vl
  ∧ root_p (identity m) !! "_host" = Some (Some (vl_host vl)).
Proof.
  intros (schema & _ & _ & ->)%convert_inr Hin.
  apply elem_of_lookup_zip_with in Hin as (i & d & v & -> & _ & _).
  simpl. auto using host_label_written.
Qed.

Lemma foldl_enqueue q ml :
  foldl plugin_write_enqueue q ml = WriteQueue (items q ++ ml) (shutdown q).
Proof.
  revert q; induction ml as [|m ml IH]; intros [it sd]; simpl.
  - by rewrite app_nil_r.
  - rewrite IH; simpl. by rewrite <- app_assoc.
Qed.

Lemma dispatch_inr vl q q' :
  plugin_dispatch_values lookup_schema vl q = inr q' →
  ∃ ml, plugin_convert_values_to_metrics lookup_schema vl = inr ml
        ∧ q' = WriteQueue (items q ++ ml) (shutdown q).
Proof.
  unfold plugin_dispatch_values.
  destruct (plugin_convert_values_to_metrics lookup_schema vl) as [e|ml];
    [discriminate|].
  intros [= <-]. exists ml. by rewrite foldl_enqueue.
Qed.

Lemma dequeue_n_all ml sd :
  dequeue_n (List.length ml) (WriteQueue ml sd) = (ml, WriteQueue [] sd).
Proof.
  induction ml as [|m ml IH]; simpl; [done|].
  unfold plugin_write_dequeue; simpl. by rewrite IH.
Qed.

(** C8: the two-value sample of plugin "interface" and type "if_octets"
    with data sources rx and tx yields exactly two metrics, in schema
    order, named interface/if_octets/rx and interface/if_octets/tx, each
    with the host of the sample under the label "_host" and with its
    timestamp and interval; in general the names are
    plugin/type/data-source for a type with more than one data source
    and plugin/type for a single-value type. *)
Theorem convert_names :
  (∀ vl v1 v2 k1 k2,
     vl_plugin vl = "interface" → vl_type vl = "if_octets" →
     values vl = [v1; v2] →
     lookup_schema "if_octets"
       = Some [DataSource "rx" k1; DataSource "tx" k2] →
     ∃ m1 m2,
       plugin_convert_values_to_metrics lookup_schema vl = inr [m1; m2]
       ∧ id_name (identity m1) = "interface/if_octets/rx"
       ∧ id_name (identity m2) = "interface/if_octets/tx"
       ∧ ds_name (ds m1) = "rx" ∧ ds_name (ds m2) = "tx"
       ∧ value m1 = v1 ∧ value m2 = v2
       ∧ Forall (λ m,
           root_p (identity m) !! "_host" = Some (Some (vl_host vl))
           ∧ time m = vl_time vl ∧ interval m = vl_interval vl) [m1; m2])
  ∧ (∀ vl schema,
       lookup_schema (vl_type vl) = Some schema →
       List.length (values vl) = List.length schema →
       ∃ ml,
         plugin_convert_values_to_metrics lookup_schema vl = inr ml
         ∧ (λ m, id_name (identity m)) <$> ml
           = (λ d, if decide (1 < List.length schema)%nat
                   then vl_plugin vl +:+ "/" +:+ vl_type vl +:+ "/"
                        +:+ ds_name d
                   else vl_plugin vl +:+ "/" +:+ vl_type vl) <$> schema
         ∧ (λ m, ds_name (ds m)) <$> ml = ds_name <$> schema).
Proof.
  split.
  - intros vl v1 v2 k1 k2 Hp Ht Hv Hs. rewrite <- Ht in Hs.
    eexists _, _. rewrite (convert_known vl _ Hs) by (by rewrite Hv).
    rewrite Hv; simpl. split; [reflexivity|].
    unfold convert_slot, identity_name; simpl. rewrite Hp, Ht.
    repeat split; try reflexivity.
    repeat constructor; simpl; apply host_label_written.
  - intros vl schema Hs Hlen. eexists.
    rewrite (convert_known vl _ Hs Hlen). split; [reflexivity|].
    split; apply fmap_zip_with_l; done.
Qed.

(** C9, amended: on an empty queue, a successful dispatch of a sample
    with at least one value followed by one dequeue hands out a metric
    with the timestamp and interval of the sample and with its identity;
    and after two dispatches the metrics leave the queue in the order in
    which they were enqueued, behind those already waiting. *)
Theorem dispatch_dequeue_fifo :
  (∀ vl q q',
     items q = [] → values vl ≠ [] →
     plugin_dispatch_values lookup_schema vl q = inr q' →
     ∃ m q'',
       plugin_write_dequeue q' = Dequeued m q''
       ∧ time m = vl_time vl ∧ interval m = vl_interval vl
       ∧ root_p (identity m) !! "_host" = Some (Some (vl_host vl)))
  ∧ (∀ vl1 vl2 q q1 q2,
       plugin_dispatch_values lookup_schema vl1 q = inr q1 →
       plugin_dispatch_values lookup_schema vl2 q1 = inr q2 →
       ∃ ml1 ml2,
         plugin_convert_values_to_metrics lookup_schema vl1 = inr ml1
         ∧ plugin_convert_values_to_metrics lookup_schema vl2 = inr ml2
         ∧ dequeue_n (List.length (items q ++ ml1 ++ ml2)) q2
           = (items q ++ ml1 ++ ml2, WriteQueue [] (shutdown q))).
Proof.
  split.
  - intros vl q q' Hempty Hvalues (ml & Hconv & ->)%dispatch_inr.
    rewrite Hempty; simpl.
    destruct ml as [|m ml].
    + apply convert_inr in Hconv as (schema & _ & Hlen & Hml).
      symmetry in Hml. apply (f_equal List.length) in Hml.
      rewrite length_zip_with in Hml. simpl in Hml.
      destruct (values vl); [done | simpl in *; lia].
    + exists m, (WriteQueue ml (shutdown q)). split; [reflexivity|].
      destruct (converted_metric vl (m :: ml) m Hconv)
        as (? & ? & _ & ?); [left|done].
  - intros vl1 vl2 q q1 q2 (ml1 & Hc1 & ->)%dispatch_inr
      (ml2 & Hc2 & ->)%dispatch_inr.
    exists ml1, ml2. simpl. rewrite <- app_assoc.
    by rewrite dequeue_n_all.
Qed.

End PipelineProperties.

(** ** Checks on the data of the tests *)

Example search_specific :
  (threshold_search 128 (Some (labelled_metric "h" "p" "t" "d")) registry).1
  = Some specific_threshold.
Proof. vm_compute. reflexivity. Qed.

Example search_generic :
  threshold_search 128 (Some (labelled_metric "other" "x" "t" "y")) registry
  = (Some generic_threshold,
     World (threshold_tree registry)
           [EvGet "other/x/t/y"; EvGet "other/x/t/"; EvGet "other//t/y";
            EvGet "other//t/"; EvGet "/x/t/y"; EvGet "/x/t/";
            EvGet "//t/y"; EvGet "//t/"]).
Proof. vm_compute. reflexivity. Qed.

Example search_unknown_type :
  (threshold_search 128 (Some (labelled_metric "h" "p" "unknown" "d"))
                    registry).1 = None.
Proof. vm_compute. reflexivity. Qed.

Example test_convert_load :
  match plugin_convert_values_to_metrics types_db load_sample with
  | inr ml =>
    (λ m, (id_name (identity m), ds_name (ds m), type m)) <$> ml
    = [("load/load/shortterm", "shortterm", "load");
       ("load/load/midterm", "midterm", "load");
       ("load/load/longterm", "longterm", "load")]
  | inl _ => False
  end.
Proof. vm_compute. reflexivity. Qed.

Example test_queue :
  match plugin_dispatch_values types_db network_sample empty_queue with
  | inr q1 =>
    match plugin_dispatch_values types_db load_sample q1 with
    | inr q2 =>
      (λ m, (id_name (identity m), time m, interval m))
        <$> (dequeue_n 6 q2).1
      = [("interface/if_octets/rx", TIME_T_TO_CDTIME_T_STATIC 1480063672,
          TIME_T_TO_CDTIME_T_STATIC 10);
         ("interface/if_octets/tx", TIME_T_TO_CDTIME_T_STATIC 1480063672,
          TIME_T_TO_CDTIME_T_STATIC 10);
         ("load/load/shortterm", TIME_T_TO_CDTIME_T_STATIC 1480063672,
          TIME_T_TO_CDTIME_T_STATIC 10);
         ("load/load/midterm", TIME_T_TO_CDTIME_T_STATIC 1480063672,
          TIME_T_TO_CDTIME_T_STATIC 10);
         ("load/load/longterm", TIME_T_TO_CDTIME_T_STATIC 1480063672,
          TIME_T_TO_CDTIME_T_STATIC 10)]
    | inl _ => False
    end
  | inl _ => False
  end.
Proof. vm_compute. reflexivity. Qed.

Example add_label_twice :
  add_label (Some "zone") None [] [] = Done (0, [], [])
  ∧ add_label (Some "zone") (Some "europe") [] [] = Done (0, [], [])
  ∧ add_label (Some "name") None [Node (Some "zone") None] [] = Fault
  ∧ add_label (Some "name") (Some "vm")
              [Node (Some "zone") (Some "europe")] [true; true; false]
    = Done (0, [Node (Some "zone") (Some "europe")], []).
Proof. repeat split. Qed.

(** ** Instances and counterexamples *)

(** The cascade on the second search of the specification's example: all
    probes but the last miss. *)
Lemma threshold_search_cascade_witness :
  root_p (identity (labelled_metric "other" "x" "t" "y")) !! "__host__"
    = Some (Some "other")
  ∧ (threshold_search 128 (Some (labelled_metric "other" "x" "t" "y"))
                      registry).1 = Some generic_threshold.
Proof.
  assert (Hhost : root_p (identity (labelled_metric "other" "x" "t" "y"))
                    !! "__host__" = Some (Some "other"))
    by (vm_compute; reflexivity).
  split; [exact Hhost|].
  destruct (threshold_search_cascade 128 _ _ registry Hhost) as (_ & -> & _).
  vm_compute; reflexivity.
Defined.

(** A metric without the label, on the same registry. *)
Lemma threshold_search_no_host_label_witness :
  root_p (identity unlabelled_metric) !! "__host__" = None
  ∧ threshold_search 128 (Some unlabelled_metric) registry = (None, registry).
Proof.
  assert (Hhost : root_p (identity unlabelled_metric) !! "__host__" = None)
    by (vm_compute; reflexivity).
  split; [exact Hhost|].
  exact (proj1 (threshold_search_no_host_label 128 unlabelled_metric
                                               registry Hhost)).
Defined.

(** The wrapper on a hit, on a miss and on a null metric. *)
Lemma ut_search_threshold_spec_witness :
  ut_search_threshold 128 (Some (labelled_metric "h" "p" "t" "d"))
                      generic_threshold registry
  = ((0, Threshold "h" "p" "t" "d" 0 0 0 0 0 0 0 None),
     World (threshold_tree registry) [EvLock; EvGet "h/p/t/d"; EvUnlock])
  ∧ ut_search_threshold 128 (Some unlabelled_metric) generic_threshold
                        registry
    = ((ENOENT, generic_threshold),
       World (threshold_tree registry) [EvLock; EvUnlock])
  ∧ ut_search_threshold 128 None generic_threshold registry
    = ((EINVAL, generic_threshold), registry).
Proof.
  destruct (ut_search_threshold_spec 128 generic_threshold registry)
    as [Hnull Hmetric].
  split; [|split; [|exact Hnull]].
  - destruct (Hmetric (labelled_metric "h" "p" "t" "d")) as [_ Hhit].
    destruct (Hhit specific_threshold) as (-> & _);
      vm_compute; reflexivity.
  - destruct (Hmetric unlabelled_metric) as [Hmiss _].
    rewrite Hmiss; vm_compute; reflexivity.
Defined.

(** A key that fits the buffer is looked up as it is. *)
Lemma threshold_get_key_witness :
  (String.length "h/p/t/d" < 5 * 128)%nat
  ∧ (threshold_get 128 (Some "h") (Some "p") (Some "t") (Some "d")
                   registry).1 = Some specific_threshold.
Proof.
  split; [simpl; lia|].
  destruct (threshold_get_key 128 (Some "h") (Some "p") (Some "t") (Some "d")
                              registry) as (_ & ->).
  - vm_compute; reflexivity.
  - simpl; lia.
Defined.

(** C6 as worded fails for every size of the buffer: a host name of
    [5 * DATA_MAX_NAME_LEN] characters gives a literal key that is stored
    but never looked up. *)
Lemma threshold_get_literal_key_counterexample :
  ¬ ∃ DATA_MAX_NAME_LEN, get_by_literal_key DATA_MAX_NAME_LEN.
Proof.
  intros [L Hclaim].
  set (host := str_repeat "h" (5 * L)).
  set (literal := host +:+ "///").
  specialize (Hclaim (Some host) None None None
                     (World {[ literal := generic_threshold ]} [])).
  rewrite threshold_get_run in Hclaim. simpl in Hclaim.
  change (or_empty (Some host) +:+ "/" +:+ "" +:+ "/" +:+ "" +:+ "/" +:+ "")
    with literal in Hclaim.
  rewrite lookup_singleton_eq in Hclaim.
  apply lookup_singleton_Some in Hclaim as [Heq _].
  assert (Hlen : String.length literal = (5 * L + 3)%nat).
  { unfold literal. rewrite str_app_length. unfold host.
    rewrite str_repeat_length. reflexivity. }
  assert (Hshort : (String.length literal ≤ 5 * L - 1)%nat).
  { rewrite Heq. apply str_take_length. }
  lia.
Qed.

(** The same with the buffer of 640 bytes: a host of 640 characters. *)
Example threshold_get_long_host :
  let host := str_repeat "h" 640 in
  let w := World {[ host +:+ "/p/t/d" := specific_threshold ]} [] in
  threshold_tree w !! (host +:+ "/p/t/d") = Some specific_threshold
  ∧ (threshold_get 128 (Some host) (Some "p") (Some "t") (Some "d") w).1
    = None.
Proof. vm_compute. split; reflexivity. Qed.

(** Filling a registered key succeeds and changes the list; a second
    value for it succeeds too and changes nothing. *)
Lemma add_label_status_witness :
  add_label (Some "zone") (Some "europe") [Node (Some "zone") None] []
  = Done (0, [Node (Some "zone") (Some "europe")], [])
  ∧ [Node (Some "zone") (Some "europe")] ≠ [Node (Some "zone") None]
  ∧ add_label (Some "zone") (Some "asia")
              [Node (Some "zone") (Some "europe")] []
    = Done (0, [Node (Some "zone") (Some "europe")], []).
Proof.
  split; [|split].
  - destruct (add_label_status "zone" (Some "europe")
                               [Node (Some "zone") None] [])
      as (_ & _ & Hpolicy).
    destruct (Hpolicy [] (Node (Some "zone") None) [])
      as [_ Hfill]; [reflexivity | constructor | constructor | reflexivity|].
    destruct (Hfill "europe" []) as [Heq _]; [reflexivity..|exact Heq].
  - destruct (add_label_status "zone" (Some "europe")
                               [Node (Some "zone") None] [])
      as (_ & _ & Hpolicy).
    destruct (Hpolicy [] (Node (Some "zone") None) [])
      as [_ Hfill]; [reflexivity | constructor | constructor | reflexivity|].
    destruct (Hfill "europe" []) as [_ Hne]; [reflexivity..|exact Hne].
  - destruct (add_label_status "zone" (Some "asia")
                               [Node (Some "zone") (Some "europe")] [])
      as (_ & _ & Hpolicy).
    destruct (Hpolicy [] (Node (Some "zone") (Some "europe")) [])
      as [Hsame _]; [reflexivity | constructor | constructor | reflexivity|].
    apply Hsame. simpl. by eexists.
Defined.

(** C4 as worded fails: the status 0 is returned both by the call that
    fills the absent value of a key and by the later call for the same
    key that leaves the list alone. *)
Lemma add_label_status_counterexample : ¬ result_reports_change.
Proof.
  intros Hclaim.
  apply (Hclaim (Some "zone") (Some "asia")
                [Node (Some "zone") (Some "europe")] [] 0
                [Node (Some "zone") (Some "europe")] []
                (Some "zone") (Some "europe")
                [Node (Some "zone") None] [] 0
                [Node (Some "zone") (Some "europe")] []);
    try reflexivity; try constructor; try by eexists.
  discriminate.
Qed.

(** The first case of [DEF_TEST(convert)]. *)
Lemma convert_names_witness :
  ∃ m1 m2,
    plugin_convert_values_to_metrics types_db network_sample = inr [m1; m2]
    ∧ id_name (identity m1) = "interface/if_octets/rx"
    ∧ id_name (identity m2) = "interface/if_octets/tx"
    ∧ root_p (identity m1) !! "_host" = Some (Some "example.com")
    ∧ root_p (identity m2) !! "_host" = Some (Some "example.com").
Proof.
  destruct (convert_names types_db) as [Hnet _].
  destruct (Hnet network_sample (derive 120) (derive 19)
                 DS_TYPE_DERIVE DS_TYPE_DERIVE)
    as (m1 & m2 & Hconv & Hn1 & Hn2 & _ & _ & _ & _ & Hall);
    try reflexivity.
  apply Forall_cons in Hall as [[Hh1 _] Hall].
  apply Forall_cons in Hall as [[Hh2 _] _].
  by exists m1, m2.
Defined.

(** One dispatch onto the fresh queue, then one dequeue. *)
Lemma dispatch_dequeue_fifo_witness :
  ∃ q', plugin_dispatch_values types_db network_sample empty_queue = inr q'
        ∧ ∃ m q'', plugin_write_dequeue q' = Dequeued m q''
                   ∧ time m = TIME_T_TO_CDTIME_T_STATIC 1480063672
                   ∧ interval m = TIME_T_TO_CDTIME_T_STATIC 10.
Proof.
  destruct (plugin_dispatch_values types_db network_sample empty_queue)
    as [e|q'] eqn:Hdispatch; [vm_compute in Hdispatch; discriminate|].
  exists q'. split; [reflexivity|].
  destruct (dispatch_dequeue_fifo types_db) as [Hone _].
  destruct (Hone network_sample empty_queue q')
    as (m & q'' & Hdq & Htime & Hint & _);
    [reflexivity | discriminate | exact Hdispatch |].
  by exists m, q''.
Defined.

(** C9 as worded fails for a dispatch onto a queue that is not empty:
    after the two samples of the test, the second taken ten seconds
    later, one dequeue hands out the first metric of the first sample,
    with the earlier timestamp. *)
Lemma dispatch_dequeue_fifo_counterexample :
  ¬ dispatch_then_dequeue types_db.
Proof.
  intros Hclaim.
  destruct (plugin_dispatch_values types_db network_sample empty_queue)
    as [e|q1] eqn:Hfirst; [vm_compute in Hfirst; discriminate|].
  destruct (plugin_dispatch_values types_db later_load_sample q1)
    as [e|q2] eqn:Hsecond.
  - vm_compute in Hfirst. injection Hfirst as <-.
    vm_compute in Hsecond. discriminate.
  - destruct (Hclaim later_load_sample q1 q2 Hsecond)
      as (m & q'' & Hdq & Htime & _).
    vm_compute in Hfirst. injection Hfirst as <-.
    vm_compute in Hsecond. injection Hsecond as <-.
    vm_compute in Hdq. injection Hdq as <- _.
    vm_compute in Htime. discriminate.
Qed.

(** * Part III. Further properties of the code *)

(** ** The threshold registry: what a search depends on *)

Section ThresholdFrame.

Variable DATA_MAX_NAME_LEN : nat.

Lemma probed_agree (tree tree' : gmap string threshold_t) keys :
  (∀ k, k ∈ probed tree keys → tree' !! k = tree !! k) →
  probed tree' keys = probed tree keys
  ∧ head (omap (λ k, tree' !! k) keys) = head (omap (λ k, tree !! k) keys).
Proof.
  induction keys as [|k keys IH]; intros Hagree; simpl in *; [done|].
  assert (Hk : tree' !! k = tree !! k).
  { apply Hagree. destruct (tree !! k); left. }
  rewrite Hk. destruct (tree !! k) as [t|] eqn:Hget; simpl; [done|].
  destruct IH as [IH1 IH2].
  { intros k' Hin. apply Hagree. by right. }
  split; [by rewrite IH1 | exact IH2].
Qed.

Lemma omap_probe_key (tree : gmap string threshold_t)
    (probes : list (cstr * cstr * cstr * cstr)) :
  omap (λ p, tree !! probe_key DATA_MAX_NAME_LEN p) probes
  = omap (λ k, tree !! k) (probe_key DATA_MAX_NAME_LEN <$> probes).
Proof.
  induction probes as [|p probes IH]; csimpl; [done|].
  by rewrite IH.
Qed.

Lemma probes_of_app tr tr' :
  probes_of (tr ++ tr') = probes_of tr ++ probes_of tr'.
Proof. unfold probes_of. apply omap_app. Qed.

Lemma probes_of_gets (keys : list string) :
  probes_of (EvGet <$> keys) = keys.
Proof.
  unfold probes_of.
  induction keys as [|k keys IH]; csimpl; [done|]. by rewrite IH.
Qed.

(** The result and the trace of a search, for any metric. *)
Lemma threshold_search_run metric_p w :
  ∃ keys,
    threshold_search DATA_MAX_NAME_LEN metric_p w
    = (head (omap (λ k, threshold_tree w !! k) keys),
       World (threshold_tree w)
             (trace w ++ (EvGet <$> probed (threshold_tree w) keys)))
    ∧ (List.length keys ≤ 8)%nat
    ∧ Forall (λ k, (String.length k ≤ 5 * DATA_MAX_NAME_LEN - 1)%nat) keys
    ∧ keys = match metric_p with
             | Some m =>
               match root_p (identity m) !! "__host__" with
               | Some host_p =>
                 probe_key DATA_MAX_NAME_LEN
                   <$> cascade host_p (plugin m) (type m) (ds_name (ds m))
               | None => []
               end
             | None => []
             end.
Proof.
  destruct metric_p as [m|].
  - destruct (root_p (identity m) !! "__host__") as [host_p|] eqn:Hhost.
    + eexists. split; [|split; [|split; [|reflexivity]]].
      * rewrite (threshold_search_probes _ m host_p w Hhost).
        rewrite probe_in_order_run, omap_probe_key. reflexivity.
      * simpl. lia.
      * repeat constructor; apply str_take_length.
    + exists []. rewrite threshold_search_unlabelled by done.
      destruct w; cbn [probed fmap list_fmap trace threshold_tree].
      rewrite app_nil_r. split; [done|]. split; [simpl; lia|]. by split.
  - exists []. destruct w; cbn [probed fmap list_fmap trace threshold_tree].
    rewrite app_nil_r. split; [done|]. split; [simpl; lia|]. by split.
Qed.

(** Splitting the probes made at the hit. *)
Lemma probed_split (tree : gmap string threshold_t) keys :
  match head (omap (λ k, tree !! k) keys) with
  | Some t =>
    ∃ misses k, probed tree keys = misses ++ [k]
                ∧ tree !! k = Some t
                ∧ Forall (λ k', tree !! k' = None) misses
  | None =>
    probed tree keys = keys ∧ Forall (λ k, tree !! k = None) keys
  end.
Proof.
  induction keys as [|k keys IH]; csimpl; [done|].
  destruct (tree !! k) as [t|] eqn:Hget; csimpl.
  - exists [], k. by repeat split.
  - destruct (head (omap (λ k, tree !! k) keys)) as [t|].
    + destruct IH as (misses & k' & -> & Hk' & Hmiss).
      exists (k :: misses), k'. repeat split; [done|]. by constructor.
    + destruct IH as [-> Hmiss]. split; [done|]. by constructor.
Qed.

Lemma probed_length (tree : gmap string threshold_t) keys :
  (List.length (probed tree keys) ≤ List.length keys)%nat.
Proof.
  induction keys as [|k keys IH]; simpl; [lia|].
  destruct (tree !! k); simpl; lia.
Qed.

Lemma probed_sublist (tree : gmap string threshold_t) keys k :
  k ∈ probed tree keys → k ∈ keys.
Proof.
  induction keys as [|k' keys IH]; simpl; [done|].
  destruct (tree !! k'); intros Hin.
  - apply list_elem_of_singleton in Hin as ->. left.
  - apply elem_of_cons in Hin as [->|Hin]; [left | right; auto].
Qed.

(** X1: the outcome of a search depends only on the keys it looked up:
    a registry that agrees with the given one on those keys yields the
    same record and the same sequence of probes. *)
Theorem threshold_search_frame metric_p tree tree' tr :
  (∀ k, k ∈ probes_of
              (trace (threshold_search DATA_MAX_NAME_LEN metric_p
                                       (World tree [])).2) →
        tree' !! k = tree !! k) →
  (threshold_search DATA_MAX_NAME_LEN metric_p (World tree' tr)).1
  = (threshold_search DATA_MAX_NAME_LEN metric_p (World tree tr)).1
  ∧ trace (threshold_search DATA_MAX_NAME_LEN metric_p (World tree' tr)).2
    = trace (threshold_search DATA_MAX_NAME_LEN metric_p (World tree tr)).2.
Proof.
  intros Hagree.
  destruct (threshold_search_run metric_p (World tree []))
    as (keys0 & Hrun0 & _ & _ & Hkeys0).
  destruct (threshold_search_run metric_p (World tree tr))
    as (keys & Hrun & _ & _ & Hkeys).
  destruct (threshold_search_run metric_p (World tree' tr))
    as (keys' & Hrun' & _ & _ & Hkeys').
  rewrite <- Hkeys in Hkeys', Hkeys0. subst keys' keys0.
  rewrite Hrun0 in Hagree. cbn [snd fst trace threshold_tree] in *.
  rewrite app_nil_l, probes_of_gets in Hagree.
  rewrite Hrun, Hrun'. cbn [snd fst trace threshold_tree].
  destruct (probed_agree tree tree' keys Hagree) as [-> ->]. done.
Qed.

(** X2: storing or replacing a threshold under a key the search did not
    look up, or removing one, does not change what the search returns. *)
Theorem threshold_search_unprobed_key metric_p tree tr k t :
  k ∉ probes_of (trace (threshold_search DATA_MAX_NAME_LEN metric_p
                                         (World tree [])).2) →
  (threshold_search DATA_MAX_NAME_LEN metric_p
                    (World (<[k := t]> tree) tr)).1
  = (threshold_search DATA_MAX_NAME_LEN metric_p (World tree tr)).1
  ∧ (threshold_search DATA_MAX_NAME_LEN metric_p
                      (World (delete k tree) tr)).1
    = (threshold_search DATA_MAX_NAME_LEN metric_p (World tree tr)).1.
Proof.
  intros Hk. split.
  - apply threshold_search_frame. intros k' Hin.
    rewrite lookup_insert_ne; [done|]. by intros ->.
  - apply threshold_search_frame. intros k' Hin.
    rewrite lookup_delete_ne; [done|]. by intros ->.
Qed.

(** X3: a search leaves the registry as it is and makes at most eight
    probes, each under a key shorter than the name buffer; on a hit the
    record is the one stored under the last key probed and all earlier
    probes missed, on a miss every probe missed. *)
Theorem threshold_search_probe_bounds metric_p w :
  let searched := threshold_search DATA_MAX_NAME_LEN metric_p w in
  threshold_tree searched.2 = threshold_tree w
  ∧ ∃ keys,
      trace searched.2 = trace w ++ (EvGet <$> keys)
      ∧ (List.length keys ≤ 8)%nat
      ∧ Forall (λ k, (String.length k ≤ 5 * DATA_MAX_NAME_LEN - 1)%nat)
               keys
      ∧ match searched.1 with
        | Some t =>
          ∃ misses k, keys = misses ++ [k]
                      ∧ threshold_tree w !! k = Some t
                      ∧ Forall (λ k', threshold_tree w !! k' = None) misses
        | None => Forall (λ k, threshold_tree w !! k = None) keys
        end.
Proof.
  intros searched. subst searched.
  destruct (threshold_search_run metric_p w)
    as (keys & -> & Hlen & Hshort & _).
  cbn [fst snd trace threshold_tree]. split; [done|].
  exists (probed (threshold_tree w) keys). split; [done|].
  split; [pose proof (probed_length (threshold_tree w) keys); lia|].
  split.
  - apply Forall_forall. intros k Hin%probed_sublist.
    rewrite Forall_forall in Hshort. exact (Hshort k Hin).
  - pose proof (probed_split (threshold_tree w) keys) as Hsplit.
    destruct (head _) as [t|]; [done|]. by destruct Hsplit as [-> ?].
Qed.

(** X4: [ut_search_threshold] never changes the registry, answers 0,
    [ENOENT] or [EINVAL], touches the caller's record only when it answers
    0, and either leaves the lock alone or takes it once, probes at most
    eight times while holding it, and releases it. *)
Theorem ut_search_threshold_lock metric_p ret_threshold w :
  let r := ut_search_threshold DATA_MAX_NAME_LEN metric_p ret_threshold w in
  threshold_tree r.2 = threshold_tree w
  ∧ (r.1.1 = 0 ∨ r.1.1 = ENOENT ∨ r.1.1 = EINVAL)
  ∧ (r.1.1 ≠ 0 → r.1.2 = ret_threshold)
  ∧ (r.1.1 = 0 → next r.1.2 = None)
  ∧ ((metric_p = None ∧ trace r.2 = trace w)
     ∨ ∃ keys, trace r.2 = trace w ++ [EvLock] ++ (EvGet <$> keys)
                                   ++ [EvUnlock]
               ∧ (List.length keys ≤ 8)%nat).
Proof.
  intros r. subst r. destruct metric_p as [m|].
  - rewrite ut_search_threshold_run. cbv zeta.
    destruct (threshold_search_run (Some m)
                (World (threshold_tree w) (trace w ++ [EvLock])))
      as (keys & -> & Hlen & _ & _).
    cbn [fst snd trace threshold_tree]. split; [done|].
    split; [destruct (head _); auto|].
    split; [by destruct (head _)|].
    split; [by destruct (head _)|].
    right. exists (probed (threshold_tree w) keys). split.
    + by rewrite <- !app_assoc.
    + pose proof (probed_length (threshold_tree w) keys); lia.
  - cbn. split; [done|]. split; [auto|]. split; [done|].
    split; [done|]. by left.
Qed.

End ThresholdFrame.

(** ** The threshold registry: when two lookups share a key *)

Lemma str_app_assoc (s t u : string) : (s +:+ t) +:+ u = s +:+ t +:+ u.
Proof.
  induction s as [|c s IH]; [done|].
  change (String c ((s +:+ t) +:+ u) = String c (s +:+ t +:+ u)).
  by f_equal.
Qed.

Lemma slash_free_split (a b r r' : string) :
  slash_free a = true → slash_free b = true →
  a +:+ "/" +:+ r = b +:+ "/" +:+ r' → a = b ∧ r = r'.
Proof.
  revert b. induction a as [|c a IH]; intros [|c' b] Ha Hb Heq;
    simpl in *.
  - by injection Heq.
  - injection Heq as <- _. by rewrite Ascii.eqb_refl in Hb.
  - injection Heq as -> _. by rewrite Ascii.eqb_refl in Ha.
  - injection Heq as -> Heq.
    apply andb_prop in Ha as [_ Ha]. apply andb_prop in Hb as [_ Hb].
    destruct (IH b Ha Hb Heq) as [-> ->]. done.
Qed.

Section ThresholdKeys.

Variable DATA_MAX_NAME_LEN : nat.

(** X5: the key does not record where one name ends and the next begins:
    a host "a/b" with plugin "c" is looked up under the key of host "a"
    with plugin "b/c", and likewise for the other boundaries. *)
Theorem threshold_get_shifted_separator (a b c : string) (x y : cstr) :
  threshold_get DATA_MAX_NAME_LEN (Some (a +:+ "/" +:+ b)) (Some c) x y
  = threshold_get DATA_MAX_NAME_LEN (Some a) (Some (b +:+ "/" +:+ c)) x y
  ∧ threshold_get DATA_MAX_NAME_LEN x (Some (a +:+ "/" +:+ b)) (Some c) y
    = threshold_get DATA_MAX_NAME_LEN x (Some a) (Some (b +:+ "/" +:+ c)) y
  ∧ threshold_get DATA_MAX_NAME_LEN x y (Some (a +:+ "/" +:+ b)) (Some c)
    = threshold_get DATA_MAX_NAME_LEN x y (Some a) (Some (b +:+ "/" +:+ c)).
Proof.
  unfold threshold_get, name_buffer, format_name, or_empty; simpl.
  repeat split; do 2 f_equal; by rewrite !str_app_assoc.
Qed.

(** X6: for host, plugin and type names without a separator, and keys
    that fit the name buffer, two lookups use the same key only when they
    are made for the same four names. *)
Theorem name_buffer_injective (h p t d h' p' t' d' : string) :
  slash_free h = true → slash_free p = true → slash_free t = true →
  slash_free h' = true → slash_free p' = true → slash_free t' = true →
  (String.length h + String.length p + String.length t + String.length d
   + 3 < 5 * DATA_MAX_NAME_LEN)%nat →
  (String.length h' + String.length p' + String.length t'
   + String.length d' + 3 < 5 * DATA_MAX_NAME_LEN)%nat →
  name_buffer DATA_MAX_NAME_LEN (Some h) (Some p) (Some t) (Some d)
  = name_buffer DATA_MAX_NAME_LEN (Some h') (Some p') (Some t') (Some d') →
  h = h' ∧ p = p' ∧ t = t' ∧ d = d'.
Proof.
  intros Hh Hp Ht Hh' Hp' Ht' Hfit Hfit'.
  unfold name_buffer, format_name, or_empty; simpl.
  rewrite !str_take_all.
  - intros Heq.
    apply slash_free_split in Heq as [-> Heq]; [|done..].
    apply slash_free_split in Heq as [-> Heq]; [|done..].
    apply slash_free_split in Heq as [-> ->]; done.
  - rewrite !str_app_length; simpl. lia.
  - rewrite !str_app_length; simpl. lia.
Qed.

End ThresholdKeys.

(** ** The label list: what an insert can do *)

Lemma create_list_node_some key value h node h' :
  create_list_node (Some key) value h = Done (Some node, h') →
  ∃ v, value = Some v ∧ node = Node (Some key) (Some v).
Proof.
  unfold create_list_node.
  destruct (malloc h) as [[] h1]; simpl; [|discriminate].
  destruct (malloc h1) as [[] h2]; simpl; [|discriminate].
  destruct value as [v|]; simpl; [|discriminate].
  destruct (malloc h2) as [[] h3]; simpl; [|discriminate].
  intros [= <- <-]. eauto.
Qed.

Lemma create_list_node_null key h :
  create_list_node (Some key) None h = Fault
  ∨ ∃ h', create_list_node (Some key) None h = Done (None, h').
Proof.
  unfold create_list_node.
  destruct (malloc h) as [[] h1]; simpl; [|eauto].
  destruct (malloc h1) as [[] h2]; simpl; eauto.
Qed.

Lemma add_label_walk_null key first l h :
  add_label_walk key None first l h = Fault
  ∨ ∃ h', add_label_walk key None first l h = Done (0, l, h').
Proof.
  revert first. induction l as [|n l IH]; intros first; simpl.
  - destruct (create_list_node_null key h) as [->|(h' & ->)]; simpl; eauto.
  - destruct (key_p n) as [k|].
    + destruct (String.eqb k key).
      * destruct (value_p n); simpl; eauto.
      * destruct (IH false) as [->|(h' & ->)]; simpl; eauto.
    + destruct (create_list_node_null key h) as [->|(h' & ->)]; simpl; eauto.
Qed.

Lemma add_label_effect_cons key value n l l' :
  key_p n ≠ Some key →
  add_label_effect key value l l' →
  add_label_effect key value (n :: l) (n :: l').
Proof.
  intros Hne [|pre m post v -> Hfresh Hkey Hvalue ->|v Hfresh ->].
  - constructor.
  - apply (effect_fill _ _ _ (n :: pre) m post v); try done.
    by constructor.
  - apply (effect_append _ _ (n :: l) v); [by constructor | done].
Qed.

Lemma add_label_walk_effect key value first l h rc l' h' :
  keyed l →
  add_label_walk key value first l h = Done (rc, l', h') →
  add_label_effect key value l l'.
Proof.
  revert first rc l' h'.
  induction l as [|n l IH]; intros first rc l' h' Hkeyed; simpl.
  - destruct (create_list_node (Some key) value h)
      as [|[[node|] h1]] eqn:Hnode; simpl; try discriminate.
    + intros [= <- <- <-].
      apply create_list_node_some in Hnode as (v & -> & ->).
      apply (effect_append _ _ [] v); [constructor | done].
    + intros [= <- <- <-]. constructor.
  - inversion Hkeyed as [|? ? [k Hk] Hkeyed']; subst. rewrite Hk.
    destruct (String.eqb k key) eqn:Heq.
    + apply String.eqb_eq in Heq as ->.
      destruct (value_p n) as [v0|] eqn:Hv.
      * intros [= <- <- <-]. constructor.
      * destruct value as [v|]; simpl; [|discriminate].
        destruct (malloc h) as [[] h1]; simpl; intros [= <- <- <-].
        -- by apply (effect_fill _ _ _ [] n l v); [| constructor | | |].
        -- constructor.
    + apply String.eqb_neq in Heq.
      destruct (add_label_walk key value false l h)
        as [|[[rc1 l1] h1]] eqn:Hwalk; simpl; [discriminate|].
      intros [= <- <- <-].
      apply add_label_effect_cons; [congruence|]. eauto.
Qed.

(** X7: on a list in which every node has a key, a call that returns
    has done one of three things and nothing else: left the list as it
    was, given a value to the first node of the key, which had none, or
    appended a node for a key that was not there. *)
Theorem add_label_effects key value l h rc l' h' :
  keyed l →
  add_label key value l h = Done (rc, l', h') →
  match key with
  | Some k => add_label_effect k value l l'
  | None => l' = l
  end.
Proof.
  intros Hkeyed. unfold add_label.
  destruct key as [k|]; [|by intros [= <- <- <-]].
  destruct l as [|n l]; [intros [= <- <- <-]; constructor|].
  by apply add_label_walk_effect.
Qed.

Lemma add_label_effect_invariants key value l l' :
  keyed l → add_label_effect key value l l' →
  keyed l'
  ∧ (NoDup (key_p <$> l) → NoDup (key_p <$> l'))
  ∧ (∀ i n, l !! i = Some n → is_Some (value_p n) → l' !! i = Some n)
  ∧ (List.length l ≤ List.length l' ≤ List.length l + 1)%nat.
Proof.
  intros Hkeyed [|pre m post v -> Hfresh Hkey Hvalue ->|v Hfresh ->].
  - repeat split; auto; lia.
  - apply Forall_app in Hkeyed as [Hpre Hpost].
    inversion Hpost as [|? ? Hm Hpost']; subst.
    split; [|split; [|split]].
    + apply Forall_app. split; [done|]. constructor; [by eexists | done].
    + by rewrite !fmap_app, !fmap_cons, Hkey.
    + intros i n Hi Hn.
      destruct (decide (i = List.length pre)) as [->|Hne].
      * rewrite list_lookup_middle in Hi by done.
        injection Hi as <-. rewrite Hvalue in Hn. by destruct Hn.
      * destruct (decide (i < List.length pre)%nat).
        -- rewrite lookup_app_l in Hi |- * by done. done.
        -- rewrite lookup_app_r in Hi |- * by lia.
           destruct (i - List.length pre)%nat as [|j] eqn:Hj; [lia|].
           done.
    + rewrite !length_app. simpl. lia.
  - split; [|split; [|split]].
    + apply Forall_app. split; [done|]. constructor; [by eexists | done].
    + intros Hnodup. rewrite fmap_app. simpl.
      apply NoDup_app. split; [done|]. split.
      * intros x Hx Hin. apply list_elem_of_singleton in Hin as ->.
        apply list_elem_of_fmap in Hx as (n & Hn & Hin).
        unfold fresh in Hfresh. rewrite Forall_forall in Hfresh.
        by apply (Hfresh n Hin).
      * apply NoDup_singleton.
    + intros i n Hi _. by apply lookup_app_l_Some.
    + rewrite length_app. simpl. lia.
Qed.

(** X8: an insert keeps the list well formed: every node still has a
    key, keys that were unique stay unique, a node that has a value is
    left where and as it was, and the list grows by at most one node. *)
Theorem add_label_invariants key value l h rc l' h' :
  keyed l →
  add_label key value l h = Done (rc, l', h') →
  keyed l'
  ∧ (NoDup (key_p <$> l) → NoDup (key_p <$> l'))
  ∧ (∀ i n, l !! i = Some n → is_Some (value_p n) → l' !! i = Some n)
  ∧ (List.length l ≤ List.length l' ≤ List.length l + 1)%nat.
Proof.
  intros Hkeyed. unfold add_label.
  destruct key as [k|]; [|intros [= <- <- <-]; repeat split; auto; lia].
  destruct l as [|n l]; [intros [= <- <- <-]; repeat split; auto; lia|].
  intros Hwalk. apply (add_label_effect_invariants k value); [done|].
  by apply (add_label_walk_effect k value true (n :: l) h rc l' h').
Qed.

(** X9: once an insert with a value has gone through on a started list,
    the key has a value, and every later insert for that key, whatever
    its value, returns 0 without touching the list or the allocator. *)
Theorem add_label_first_writer_wins key value l h :
  l ≠ [] → keyed l → all_succeed h →
  ∃ l' h',
    add_label (Some key) (Some value) l h = Done (0, l', h')
    ∧ (∃ n, n ∈ l' ∧ key_p n = Some key ∧ is_Some (value_p n))
    ∧ ∀ value2 h2,
        add_label (Some key) value2 l' h2 = Done (0, l', h2).
Proof.
  intros Hne Hkeyed Hall.
  destruct (keyed_split key l Hkeyed)
    as [Hfresh|(pre & n & post & -> & Hpre & Hfresh & Hn)].
  - destruct (add_label_append key value l h Hne Hkeyed Hfresh Hall)
      as (h' & Hadd).
    exists (l ++ [Node (Some key) (Some value)]), h'. split; [done|]. split.
    + exists (Node (Some key) (Some value)).
      split; [apply elem_of_app; right; left | by split; [|eexists]].
    + intros value2 h2. by apply add_label_existing; [| | |eexists].
  - destruct (value_p n) as [v0|] eqn:Hv.
    + exists (pre ++ n :: post), h.
      assert (Hex : ∀ value2 h2,
                 add_label (Some key) value2 (pre ++ n :: post) h2
                 = Done (0, pre ++ n :: post, h2))
        by (intros; apply add_label_existing; rewrite ?Hv; eauto).
      split; [apply Hex|]. split; [|apply Hex].
      exists n. split; [apply elem_of_app; right; left|].
      rewrite Hv; eauto.
    + destruct (malloc_all_succeed h Hall) as (h' & Hm & _).
      exists (pre ++ Node (Some key) (Some value) :: post), h'.
      split; [by apply add_label_fill|]. split.
      * exists (Node (Some key) (Some value)).
        split; [apply elem_of_app; right; left | by split; [|eexists]].
      * intros value2 h2. by apply add_label_existing; [| | |eexists].
Qed.

(** X10: an insert without a value never registers anything: the call
    either runs into [strlen (NULL)] or returns with the list as it was,
    and its status is 1 only for a null key. *)
Theorem add_label_null_value key l h :
  add_label key None l h = Fault
  ∨ ∃ rc h', add_label key None l h = Done (rc, l, h')
             ∧ (rc = 0 ∨ rc = 1) ∧ (rc = 1 ↔ key = None).
Proof.
  unfold add_label. destruct key as [k|].
  - destruct l as [|n l].
    + right. exists 0, h. repeat split; auto; discriminate.
    + destruct (add_label_walk_null k true (n :: l) h) as [->|(h' & ->)];
        [by left|].
      right. exists 0, h'. repeat split; auto; discriminate.
  - right. exists 1, h. repeat split; auto.
Qed.

(** ** Tokens *)

Lemma str_app_nil_r (s : string) : s +:+ "" = s.
Proof.
  induction s as [|c s IH]; [done|].
  change (String c (s +:+ "") = String c s). by f_equal.
Qed.

Lemma strtok_from_span token s :
  strtok_from token s =
  let '(t, rest) := span_token s in
  if decide (token +:+ t = "") then strtok_tokens rest
  else (token +:+ t) :: strtok_tokens rest.
Proof.
  revert token. induction s as [|c s IH]; intros token; simpl.
  - rewrite str_app_nil_r. by repeat case_decide.
  - destruct (Ascii.eqb c ",") eqn:Hc.
    + rewrite str_app_nil_r. by repeat case_decide.
    + rewrite IH. destruct (span_token s) as [t rest].
      rewrite str_app_assoc. simpl.
      repeat case_decide; try done; by destruct token.
Qed.

Lemma strtok_tokens_skip s : strtok_tokens (skip_delim s) = strtok_tokens s.
Proof.
  unfold strtok_tokens. induction s as [|c s IH]; simpl; [done|].
  destruct (Ascii.eqb c ",") eqn:Hc; simpl; [|by rewrite Hc].
  by rewrite IH.
Qed.

(** The token list is what calling [strtok_r] until it returns [NULL]
    hands out. *)
Lemma strtok_tokens_step s :
  match strtok_r s with
  | None => strtok_tokens s = []
  | Some (token, rest) => strtok_tokens s = token :: strtok_tokens rest
  end.
Proof.
  unfold strtok_r. rewrite <- (strtok_tokens_skip s).
  destruct (skip_delim s) as [|c s'] eqn:Hskip; [done|].
  assert (Hc : Ascii.eqb c "," = false).
  { clear -Hskip. induction s as [|c0 s IH]; simpl in Hskip; [done|].
    destruct (Ascii.eqb c0 ",") eqn:Hc0; [auto|].
    by injection Hskip as -> _. }
  unfold strtok_tokens at 1. rewrite strtok_from_span.
  destruct (span_token (String c s')) as [t rest] eqn:Hspan.
  simpl in Hspan. rewrite Hc in Hspan.
  destruct (span_token s') as [t' rest']. injection Hspan as <- <-.
  by case_decide.
Qed.

Lemma tokenize_loop_unchanged tokens l h :
  tokenize_loop tokens l h = Fault
  ∨ ∃ h', tokenize_loop tokens l h = Done (0, l, h').
Proof.
  revert h. induction tokens as [|token tokens IH]; intros h; simpl.
  - eauto.
  - destruct l as [|n l]; [simpl; apply IH|].
    unfold add_label.
    destruct (add_label_walk_null token true (n :: l) h) as [->|(h' & ->)];
      simpl; [by left|].
    apply IH.
Qed.

Lemma tokenize_loop_empty tokens h :
  tokenize_loop tokens [] h = Done (0, [], h).
Proof. induction tokens as [|token tokens IH]; simpl; [done | apply IH]. Qed.

Lemma tokenize_extra_fields_unchanged value l h rc l' h' :
  tokenize_extra_fields value l h = Done (rc, l', h') →
  l' = l ∧ (rc = 0 ∨ rc = 1) ∧ (rc = 1 ↔ ∃ h0, h = false :: h0).
Proof.
  destruct value as [value|]; simpl; [|discriminate].
  destruct h as [|[] h0]; simpl.
  - destruct (tokenize_loop_unchanged (strtok_tokens value) l [])
      as [->|(h1 & ->)]; [discriminate|].
    intros [= <- <- <-]. repeat split; auto; [discriminate|].
    by intros (? & [=]).
  - destruct (tokenize_loop_unchanged (strtok_tokens value) l h0)
      as [->|(h1 & ->)]; [discriminate|].
    intros [= <- <- <-]. repeat split; auto; [discriminate|].
    by intros (? & [=]).
  - intros [= <- <- <-]. repeat split; eauto.
Qed.

Lemma tokenize_extra_fields_empty value h :
  tokenize_extra_fields (Some value) [] h
  = Done (if (malloc h).1 then 0 else 1, [], (malloc h).2).
Proof.
  simpl. destruct h as [|[] h0]; simpl; by rewrite ?tokenize_loop_empty.
Qed.


(** ** The callbacks of the plugin *)

Lemma cleanup_list_nil l : cleanup_list l = [].
Proof. by destruct l. Qed.

(** What [gcp_metadata_cleanup] comes to. *)
Lemma gcp_metadata_cleanup_run s :
  gcp_metadata_cleanup s =
  Done (tt,
        let hd := gcp_metadata_handle s in
        match curl_p hd with
        | Some _ =>
          PluginWorld
            (Handle None None [] (parsed_data hd)) (heap s)
            (events s ++ CurlEasyCleanup ::
               match headers hd with
               | Some _ => [CurlSlistFreeAll]
               | None => []
               end)
        | None => s
        end).
Proof.
  unfold gcp_metadata_cleanup, mbind, P_bind, get_handle, set_handle,
    record_event, mret, P_ret.
  destruct s as [[curl hs l pd] h es]; simpl.
  destruct curl as [c|]; simpl; [|done].
  destruct hs as [hs|]; simpl; rewrite cleanup_list_nil;
    by rewrite <- ?app_assoc.
Qed.

Lemma lock_events_app es es' :
  lock_events (es ++ es') = lock_events es ++ lock_events es'.
Proof. unfold lock_events. apply List.filter_app. Qed.

Lemma lock_events_cons e es :
  lock_events (e :: es)
  = (if is_lock_event e then [e] else []) ++ lock_events es.
Proof. unfold lock_events; simpl. by destruct (is_lock_event e). Qed.

Lemma dispatches_app es es' :
  dispatches (es ++ es') = dispatches es ++ dispatches es'.
Proof. unfold dispatches. apply omap_app. Qed.

(** What [gcp_metadata_shutdown] comes to. *)
Lemma gcp_metadata_shutdown_run s :
  gcp_metadata_shutdown s =
  Done (0,
        let hd := gcp_metadata_handle s in
        PluginWorld
          (match curl_p hd with
           | Some _ => Handle None None [] (parsed_data hd)
           | None => hd
           end)
          (heap s)
          (events s ++ [PthreadSetcancelstate false; HandleLock] ++
             match curl_p hd with
             | Some _ =>
               CurlEasyCleanup ::
                 match headers hd with
                 | Some _ => [CurlSlistFreeAll]
                 | None => []
                 end
             | None => []
             end ++ [HandleUnlock; PthreadSetcancelstate true])).
Proof.
  unfold gcp_metadata_shutdown, mbind, P_bind, pthread_setcancelstate,
    record_event, mret, P_ret.
  rewrite gcp_metadata_cleanup_run.
  destruct s as [[curl hs l pd] h es]; simpl.
  destruct curl as [c|]; simpl; [destruct hs; simpl|];
    by rewrite <- ?app_assoc.
Qed.

(** X12: after [gcp_metadata_shutdown] there is no connection handle;
    header list and label list are released with the connection handle,
    so that without one the label list is kept as it is; a second
    shutdown finds nothing left to release. *)
Theorem gcp_metadata_shutdown_releases s :
  ∃ s',
    gcp_metadata_shutdown s = Done (0, s')
    ∧ heap s' = heap s
    ∧ curl_p (gcp_metadata_handle s') = None
    ∧ (is_Some (curl_p (gcp_metadata_handle s)) →
       headers (gcp_metadata_handle s') = None
       ∧ label_list (gcp_metadata_handle s') = [])
    ∧ (curl_p (gcp_metadata_handle s) = None →
       gcp_metadata_handle s' = gcp_metadata_handle s)
    ∧ gcp_metadata_shutdown s'
      = Done (0, PluginWorld (gcp_metadata_handle s') (heap s')
                             (events s' ++ locked_section)).
Proof.
  eexists. split; [apply gcp_metadata_shutdown_run|].
  rewrite gcp_metadata_shutdown_run.
  destruct s as [[[c|] hs l pd] h es]; simpl; repeat split; done.
Qed.

(** What [gcp_metadata_init] comes to. *)
Lemma gcp_metadata_init_run curl_easy_init curl_slist_append s :
  gcp_metadata_init curl_easy_init curl_slist_append s =
  let hd := gcp_metadata_handle s in
  let fresh_handle := bool_decide (curl_p hd = None) && curl_easy_init in
  Done (if fresh_handle && negb curl_slist_append then 1 else 0,
        PluginWorld
          (if fresh_handle then
             if curl_slist_append then
               Handle (Some [CURLOPT_URL INSTANCE_METADATA_URL;
                             CURLOPT_FOLLOWLOCATION 1;
                             CURLOPT_HTTPHEADER ["Metadata-Flavor: Google"];
                             CURLOPT_WRITEFUNCTION;
                             CURLOPT_WRITEDATA])
                      (Some ["Metadata-Flavor: Google"])
                      (label_list hd) (Metadata None 0)
             else Handle None None [] (parsed_data hd)
           else hd)
          (heap s)
          (events s ++ [PthreadSetcancelstate false; HandleLock] ++
             (if fresh_handle && negb curl_slist_append
              then [CurlEasyCleanup] else []) ++
             [HandleUnlock; PthreadSetcancelstate true])).
Proof.
  unfold gcp_metadata_init, mbind, P_bind, pthread_setcancelstate,
    record_event, get_handle, set_handle, mret, P_ret.
  destruct s as [[[c|] hs l pd] h es]; simpl.
  - by rewrite <- !app_assoc.
  - destruct curl_easy_init; simpl; [|by rewrite <- !app_assoc].
    destruct curl_slist_append; simpl; [by rewrite <- !app_assoc|].
    destruct l; simpl; by rewrite <- !app_assoc.
Qed.

(** X13: [gcp_metadata_init] fails, with status 1, exactly when it had to
    create the connection handle, got one, and could not build the header
    list; it then leaves no connection handle and an empty label list.
    With status 0 there is a connection handle only if there was one
    before or [curl_easy_init] provided one; a handle that exists is left
    exactly as it is. *)
Theorem gcp_metadata_init_outcomes curl_easy_init curl_slist_append s :
  ∃ rc s',
    gcp_metadata_init curl_easy_init curl_slist_append s = Done (rc, s')
    ∧ heap s' = heap s
    ∧ (rc = 0 ∨ rc = 1)
    ∧ (rc = 1 ↔ curl_p (gcp_metadata_handle s) = None
                ∧ curl_easy_init = true ∧ curl_slist_append = false)
    ∧ (rc = 1 → gcp_metadata_handle s'
                = Handle None None [] (parsed_data (gcp_metadata_handle s)))
    ∧ (is_Some (curl_p (gcp_metadata_handle s)) →
       gcp_metadata_handle s' = gcp_metadata_handle s)
    ∧ (is_Some (curl_p (gcp_metadata_handle s')) ↔
       is_Some (curl_p (gcp_metadata_handle s))
       ∨ (curl_easy_init = true ∧ curl_slist_append = true))
    ∧ (curl_p (gcp_metadata_handle s) = None → rc = 0 →
       curl_easy_init = true →
       curl_p (gcp_metadata_handle s')
       = Some [CURLOPT_URL INSTANCE_METADATA_URL;
               CURLOPT_FOLLOWLOCATION 1;
               CURLOPT_HTTPHEADER ["Metadata-Flavor: Google"];
               CURLOPT_WRITEFUNCTION; CURLOPT_WRITEDATA]
       ∧ label_list (gcp_metadata_handle s')
         = label_list (gcp_metadata_handle s)).
Proof.
  eexists _, _. split; [apply gcp_metadata_init_run|].
  destruct s as [[[c|] hs l pd] h es];
    destruct curl_easy_init, curl_slist_append; simpl;
    repeat split; auto; try done; try (intros [? [=]]);
    try (by intros (? & ? & ?)); try (by intros [[? [=]]|[? ?]]);
    try (by intros [[? [=]]|[[=] ?]]); eauto.
Qed.

(** What [gcp_metadata_config] comes to once key and value pass the
    checks. *)
Lemma gcp_metadata_config_run value s :
  gcp_metadata_config (Some "ExtraMetricFields") (Some value) s =
  let hd := gcp_metadata_handle s in
  '(_, l, h) ← tokenize_extra_fields (Some value) (label_list hd) (heap s);
  Done (0, PluginWorld (Handle (curl_p hd) (headers hd) l (parsed_data hd))
                       h (events s ++ locked_section)).
Proof.
  unfold gcp_metadata_config, on_label_list, mbind, P_bind, outcome_bind,
    pthread_setcancelstate, record_event, mret, P_ret.
  cbn [String.eqb Ascii.eqb Bool.eqb negb andb
       gcp_metadata_handle heap events].
  destruct (tokenize_extra_fields _ _ _) as [|[[rc l] h]];
    cbn [gcp_metadata_handle heap events]; [done|].
  by rewrite <- !app_assoc.
Qed.

Lemma gcp_metadata_config_refused key value s :
  value = None ∨ key ≠ Some "ExtraMetricFields" →
  gcp_metadata_config key value s = Done (-1, s).
Proof.
  unfold gcp_metadata_config.
  destruct value as [v|]; [|done]. destruct key as [k|]; [|done].
  intros [[=]|Hne].
  destruct (String.eqb k "ExtraMetricFields") eqn:Heq; [|done].
  apply String.eqb_eq in Heq as ->. done.
Qed.

(** X14: [gcp_metadata_config] refuses, with -1 and without any effect,
    a null key, a null value and every key other than ExtraMetricFields;
    for ExtraMetricFields it answers 0, but the handle, label list
    included, is the same after the call as before: no field is ever
    registered.  On the empty label list the call always returns. *)
Theorem gcp_metadata_config_effect key value s :
  (value = None ∨ key ≠ Some "ExtraMetricFields" →
   gcp_metadata_config key value s = Done (-1, s))
  ∧ (∀ rc s',
       gcp_metadata_config key value s = Done (rc, s') →
       (rc = 0 ∨ rc = -1)
       ∧ (rc = 0 ↔ key = Some "ExtraMetricFields" ∧ is_Some value)
       ∧ gcp_metadata_handle s' = gcp_metadata_handle s)
  ∧ (key = Some "ExtraMetricFields" → is_Some value →
     label_list (gcp_metadata_handle s) = [] →
     ∃ h', gcp_metadata_config key value s
           = Done (0, PluginWorld (gcp_metadata_handle s) h'
                                  (events s ++ locked_section))).
Proof.
  split; [apply gcp_metadata_config_refused|]. split.
  - intros rc s'.
    destruct (decide (key = Some "ExtraMetricFields")) as [->|Hne].
    + destruct value as [v|].
      * rewrite gcp_metadata_config_run. cbv zeta.
        destruct (tokenize_extra_fields (Some v) _ _)
          as [|[[rc0 l] h]] eqn:Htok; simpl; [discriminate|].
        intros [= <- <-].
        destruct (tokenize_extra_fields_unchanged _ _ _ _ _ _ Htok)
          as (-> & _ & _).
        destruct s as [[c hs l pd] h0 es]; simpl.
        repeat split; eauto.
      * rewrite gcp_metadata_config_refused by auto.
        intros [= <- <-]. repeat split; auto; try done.
        by intros [_ [? [=]]].
    + rewrite gcp_metadata_config_refused by auto.
      intros [= <- <-]. repeat split; auto; try done.
      by intros [? _].
  - intros -> [v ->] Hnil. rewrite gcp_metadata_config_run. cbv zeta.
    rewrite Hnil.
    rewrite tokenize_extra_fields_empty. simpl.
    destruct s as [[c hs l pd] h0 es].
    simpl in *. subst l. eauto.
Qed.

Section GcpMetadataProperties.

Variable DATA_MAX_NAME_LEN : nat.
Variable meta_data_add_string : list plugin_event → string → string → Z.
Variable curl_easy_perform :
  option (list curl_option) → list_container_t → allocator
  → outcome (Z * list_container_t * allocator).

Lemma lock_events_add_events adds : lock_events (add_events adds) = [].
Proof. induction adds as [|kv adds IH]; simpl; done. Qed.

Lemma dispatches_add_events adds : dispatches (add_events adds) = [].
Proof. induction adds as [|kv adds IH]; simpl; done. Qed.

Lemma all_accepted_nil es : all_accepted meta_data_add_string es [].
Proof. intros [|] ? ? ? [=]. Qed.

Lemma all_accepted_cons es k v adds :
  0 ≤ meta_data_add_string es k v →
  all_accepted meta_data_add_string (es ++ [MetaDataAddString k v]) adds →
  all_accepted meta_data_add_string es ((k, v) :: adds).
Proof.
  intros Hkv Hadds [|kv pre] k' v' post Heq; simpl in Heq.
  - injection Heq as -> -> _. simpl. by rewrite app_nil_r.
  - injection Heq as <- Heq. specialize (Hadds pre k' v' post Heq).
    simpl. by rewrite <- app_assoc in Hadds.
Qed.

Lemma refused_not_accepted es pre k v pairs :
  (pre ++ [(k, v)]) `prefix_of` pairs →
  refused_after meta_data_add_string es pre k v →
  ¬ all_accepted meta_data_add_string es pairs.
Proof.
  intros [post ->] [_ Hneg] Hacc.
  specialize (Hacc pre k v post). rewrite <- app_assoc in Hacc.
  specialize (Hacc eq_refl). lia.
Qed.

(** What the loop over the labels comes to. *)
Lemma submit_labels_run nodes s :
  ∃ failed adds,
    submit_labels meta_data_add_string nodes s
    = Done (failed,
            PluginWorld (gcp_metadata_handle s) (heap s)
              (events s ++ add_events adds
                 ++ if failed : bool then [MetaDataDestroy] else []))
    ∧ adds `prefix_of` label_pairs nodes
    ∧ (failed = false →
       adds = label_pairs nodes
       ∧ all_accepted meta_data_add_string (events s) adds)
    ∧ (failed = true →
       ∃ pre k v, adds = pre ++ [(k, v)]
                  ∧ refused_after meta_data_add_string (events s) pre k v).
Proof.
  revert s. induction nodes as [|node nodes IH]; intros s.
  - exists false, []. destruct s; simpl. rewrite app_nil_r.
    split; [done|]. split; [done|].
    split; [auto using all_accepted_nil | done].
  - unfold label_pairs. csimpl. fold (label_pairs nodes).
    destruct (key_p node) as [key|]; [destruct (value_p node) as [value|]|];
      try apply IH.
    unfold mbind at 1, P_bind at 1. cbn beta iota.
    unfold mbind at 1, P_bind at 1, record_event at 1. cbn beta iota.
    case_decide as Hstatus.
    + exists true, [(key, value)]. destruct s as [hd h es].
      unfold mbind, P_bind, record_event, mret, P_ret; simpl.
      rewrite <- app_assoc. split; [done|]. split; [|split; [done|]].
      * by exists (label_pairs nodes).
      * intros _. exists [], key, value. split; [done|].
        split; [apply all_accepted_nil|]. simpl in *.
        by rewrite app_nil_r.
    + destruct (IH (PluginWorld (gcp_metadata_handle s) (heap s)
                      (events s ++ [MetaDataAddString key value])))
        as (failed & adds & -> & Hprefix & Hall & Hsome).
      cbn [events] in Hall, Hsome.
      exists failed, ((key, value) :: adds). simpl.
      rewrite <- app_assoc. split; [done|]. split; [|split].
      * by apply prefix_cons.
      * intros Hf. destruct (Hall Hf) as [-> Hacc]. split; [done|].
        apply all_accepted_cons; [lia | done].
      * intros Hf. destruct (Hsome Hf) as (pre & k & v & -> & Hacc & Hneg).
        exists ((key, value) :: pre), k, v. split; [done|]. split.
        -- apply all_accepted_cons; [lia | done].
        -- simpl. by rewrite <- app_assoc in Hneg.
Qed.

(** What [gcp_metadata_submit] comes to. *)
Lemma gcp_metadata_submit_run s :
  let hd := gcp_metadata_handle s in
  let created := events s ++ [MetaDataCreate] in
  ∃ (failed : bool) adds,
    gcp_metadata_submit DATA_MAX_NAME_LEN meta_data_add_string s
    = Done (if failed then 1 else 0,
            PluginWorld
              (if failed then hd
               else Handle (curl_p hd) (headers hd) [] (parsed_data hd))
              (heap s)
              (created ++ add_events adds ++
                 if failed then [MetaDataDestroy]
                 else [PluginDispatchValues
                         (submitted_value_list DATA_MAX_NAME_LEN);
                       MetaDataDestroy]))
    ∧ adds `prefix_of` label_pairs (label_list hd)
    ∧ (failed = false →
       adds = label_pairs (label_list hd)
       ∧ all_accepted meta_data_add_string created adds)
    ∧ (failed = true →
       ∃ pre k v, adds = pre ++ [(k, v)]
                  ∧ refused_after meta_data_add_string created pre k v).
Proof.
  intros hd created. unfold gcp_metadata_submit.
  unfold mbind at 1, P_bind at 1, record_event at 1. cbn beta iota.
  unfold mbind at 1, P_bind at 1, get_handle at 1. cbn beta iota.
  cbn [gcp_metadata_handle heap events]. fold hd. fold created.
  destruct (label_list hd) as [|n l] eqn:Hl.
  - exists false, []. unfold mbind, P_bind, record_event, mret, P_ret.
    cbn. rewrite <- ?app_assoc.
    split; [|split; [done|split; [auto using all_accepted_nil|done]]].
    do 3 f_equal. destruct s as [[c hs l pd] h es]; simpl in *. by subst.
  - destruct (submit_labels_run (n :: l) (PluginWorld hd (heap s) created))
      as (failed & adds & Hrun & Hprefix & Hall & Hsome).
    exists failed, adds.
    unfold mbind at 1, P_bind at 1. unfold mbind at 1, P_bind at 1.
    rewrite Hrun. cbn [gcp_metadata_handle heap events].
    split; [|done].
    destruct failed; unfold mbind, P_bind, record_event, set_handle,
      mret, P_ret; cbn; rewrite ?cleanup_list_nil, <- ?app_assoc; done.
Qed.

(** X15: [gcp_metadata_submit] offers the labels that have a key and a
    value to [meta_data_add_string] in list order.  It answers 0 exactly
    when every one of these calls answers a status that is not negative:
    it has then emptied the label list and dispatched one value list, the
    same whatever the labels are.  Otherwise it answers 1: it stops at
    the first call that answers a negative status, keeps the handle and
    dispatches nothing.  Either way the meta data it created is
    destroyed once, and the connection handle and the allocator are not
    touched.  With name fields of more than eight characters the value
    list is one gauge 1.5 of plugin metadata and type gauge. *)
Theorem gcp_metadata_submit_outcomes s :
  let hd := gcp_metadata_handle s in
  let created := events s ++ [MetaDataCreate] in
  ∃ rc s' adds,
    gcp_metadata_submit DATA_MAX_NAME_LEN meta_data_add_string s
    = Done (rc, s')
    ∧ heap s' = heap s
    ∧ curl_p (gcp_metadata_handle s') = curl_p hd
    ∧ adds `prefix_of` label_pairs (label_list hd)
    ∧ ((rc = 0
        ∧ adds = label_pairs (label_list hd)
        ∧ all_accepted meta_data_add_string created adds
        ∧ label_list (gcp_metadata_handle s') = []
        ∧ events s'
          = created ++ add_events adds
              ++ [PluginDispatchValues
                    (submitted_value_list DATA_MAX_NAME_LEN);
                  MetaDataDestroy])
       ∨ (rc = 1
          ∧ (∃ pre k v,
               adds = pre ++ [(k, v)]
               ∧ refused_after meta_data_add_string created pre k v)
          ∧ gcp_metadata_handle s' = hd
          ∧ events s' = created ++ add_events adds ++ [MetaDataDestroy]))
    ∧ (rc = 0 ↔ all_accepted meta_data_add_string created
                             (label_pairs (label_list hd)))
    ∧ ((8 < DATA_MAX_NAME_LEN)%nat →
       submitted_value_list DATA_MAX_NAME_LEN
       = ValueList [gauge 0x3FF8000000000000] 0 0 "" "metadata" "gauge").
Proof.
  intros hd created.
  destruct (gcp_metadata_submit_run s)
    as (failed & adds & Hrun & Hprefix & Hall & Hsome).
  eexists _, _, adds. split; [exact Hrun|].
  assert (Hvl : (8 < DATA_MAX_NAME_LEN)%nat →
                submitted_value_list DATA_MAX_NAME_LEN
                = ValueList [gauge 0x3FF8000000000000] 0 0 ""
                            "metadata" "gauge").
  { intros HL. unfold submitted_value_list, strncpy_name.
    rewrite !str_take_all by (simpl; lia). done. }
  destruct failed; cbn [gcp_metadata_handle heap events curl_p label_list].
  - split; [done|]. split; [done|]. split; [done|].
    split; [right; auto|]. split; [|done].
    split; [done|]. intros Hacc.
    destruct (Hsome eq_refl) as (pre & k & v & -> & Hrefused).
    by destruct (refused_not_accepted _ _ _ _ _ Hprefix Hrefused).
  - destruct (Hall eq_refl) as [-> Hacc].
    split; [done|]. split; [done|]. split; [done|].
    split; [left; auto|]. split; [|done]. done.
Qed.

(** What [gcp_metadata_read] comes to, given what the transfer did. *)
Lemma gcp_metadata_read_run s res l1 h1 :
  let hd := gcp_metadata_handle s in
  curl_easy_perform (curl_p hd) (label_list hd) (heap s)
  = Done (res, l1, h1) →
  let transferred :=
    PluginWorld (Handle (curl_p hd) (headers hd) l1 (parsed_data hd)) h1
                (events s ++ [PthreadSetcancelstate false; HandleLock]) in
  gcp_metadata_read DATA_MAX_NAME_LEN meta_data_add_string curl_easy_perform
                    s
  = if decide (res ≠ CURLE_OK) then
      '(_, s') ← gcp_metadata_cleanup transferred;
      Done (res, PluginWorld (gcp_metadata_handle s') (heap s')
                   (events s' ++ [HandleUnlock; PthreadSetcancelstate true]))
    else
      '(rc, s') ← gcp_metadata_submit DATA_MAX_NAME_LEN meta_data_add_string
                                      transferred;
      Done (if decide (rc ≠ 0) then 1 else 0,
            PluginWorld (gcp_metadata_handle s') (heap s')
              (events s' ++ [HandleUnlock; PthreadSetcancelstate true])).
Proof.
  intros hd Hperform transferred. unfold gcp_metadata_read.
  unfold mbind at 1, P_bind at 1, pthread_setcancelstate at 1,
    record_event at 1. cbn beta iota.
  unfold mbind at 1, P_bind at 1, record_event at 1. cbn beta iota.
  unfold mbind at 1, P_bind at 1, get_handle at 1. cbn beta iota.
  unfold mbind at 1, P_bind at 1, on_label_list at 1. cbn beta iota zeta.
  cbn [gcp_metadata_handle heap events]. fold hd.
  rewrite Hperform. cbn [mbind outcome_bind].
  unfold mbind at 1, outcome_bind at 1. cbn beta iota.
  rewrite <- app_assoc. cbn [app]. fold transferred.
  case_decide.
  - unfold mbind at 1, P_bind at 1.
    destruct (gcp_metadata_cleanup transferred) as [|[[] s']]; [done|].
    unfold mbind, P_bind, outcome_bind, pthread_setcancelstate,
      record_event, mret, P_ret; cbn. by rewrite <- app_assoc.
  - unfold mbind at 1, P_bind at 1.
    destruct (gcp_metadata_submit _ _ transferred) as [|[rc s']]; [done|].
    unfold mbind, P_bind, outcome_bind, pthread_setcancelstate,
      record_event, mret, P_ret; cbn beta iota.
    case_decide; cbn; by rewrite <- app_assoc.
Qed.

Lemma gcp_metadata_read_fault s :
  let hd := gcp_metadata_handle s in
  curl_easy_perform (curl_p hd) (label_list hd) (heap s) = Fault →
  gcp_metadata_read DATA_MAX_NAME_LEN meta_data_add_string curl_easy_perform
                    s = Fault.
Proof.
  intros hd Hperform. unfold gcp_metadata_read.
  unfold mbind at 1, P_bind at 1, pthread_setcancelstate at 1,
    record_event at 1. cbn beta iota.
  unfold mbind at 1, P_bind at 1, record_event at 1. cbn beta iota.
  unfold mbind at 1, P_bind at 1, get_handle at 1. cbn beta iota.
  unfold mbind at 1, P_bind at 1, on_label_list at 1. cbn beta iota zeta.
  cbn [gcp_metadata_handle heap events]. fold hd.
  by rewrite Hperform.
Qed.

(** X16: when the transfer fails, [gcp_metadata_read] answers its result
    code, dispatches nothing and gives up the connection handle, so that
    the next read has none.  When it succeeds, the read answers 0
    exactly when [meta_data_add_string] takes every label the transfer
    left, and it has then dispatched one value list and emptied the label
    list; otherwise it answers 1, one of these labels having been
    refused after those before it were taken, and it has then dispatched
    nothing and kept the list. *)
Theorem gcp_metadata_read_outcomes s res l1 h1 :
  let hd := gcp_metadata_handle s in
  let created :=
    events s ++ [PthreadSetcancelstate false; HandleLock; MetaDataCreate] in
  curl_easy_perform (curl_p hd) (label_list hd) (heap s)
  = Done (res, l1, h1) →
  ∃ rc s',
    gcp_metadata_read DATA_MAX_NAME_LEN meta_data_add_string
                      curl_easy_perform s = Done (rc, s')
    ∧ heap s' = h1
    ∧ (res ≠ CURLE_OK →
       rc = res
       ∧ curl_p (gcp_metadata_handle s') = None
       ∧ dispatches (events s') = dispatches (events s)
       ∧ (is_Some (curl_p hd) →
          headers (gcp_metadata_handle s') = None
          ∧ label_list (gcp_metadata_handle s') = [])
       ∧ (curl_p hd = None → label_list (gcp_metadata_handle s') = l1))
    ∧ (res = CURLE_OK →
       curl_p (gcp_metadata_handle s') = curl_p hd
       ∧ ((rc = 0
           ∧ all_accepted meta_data_add_string created (label_pairs l1)
           ∧ label_list (gcp_metadata_handle s') = []
           ∧ dispatches (events s')
             = dispatches (events s)
                 ++ [submitted_value_list DATA_MAX_NAME_LEN])
          ∨ (rc = 1
             ∧ (∃ pre k v,
                  (pre ++ [(k, v)]) `prefix_of` label_pairs l1
                  ∧ refused_after meta_data_add_string created pre k v)
             ∧ label_list (gcp_metadata_handle s') = l1
             ∧ dispatches (events s') = dispatches (events s)))
       ∧ (rc = 0 ↔ all_accepted meta_data_add_string created
                                (label_pairs l1))).
Proof.
  intros hd created Hperform.
  rewrite (gcp_metadata_read_run s res l1 h1 Hperform).
  subst hd created. destruct s as [[c hs l pd] h es].
  cbn [gcp_metadata_handle heap events curl_p headers label_list
       parsed_data] in *.
  case_decide as Hres.
  - rewrite gcp_metadata_cleanup_run.
    cbn [mbind outcome_bind gcp_metadata_handle heap events curl_p headers
         label_list parsed_data].
    eexists _, _. split; [reflexivity|].
    destruct c as [c|];
      cbn [gcp_metadata_handle heap events curl_p headers label_list].
    + split; [done|]. split; [|done]. intros _.
      rewrite !dispatches_app. destruct hs; cbn; rewrite !app_nil_r;
        repeat split; eauto; by intros [=].
    + split; [done|]. split; [|done]. intros _.
      rewrite !dispatches_app. cbn. rewrite !app_nil_r.
      split; [done|]. split; [done|]. split; [done|].
      split; [by intros [? [=]] | done].
  - set (transferred := PluginWorld _ _ _).
    destruct (gcp_metadata_submit_run transferred)
      as (failed & adds & -> & Hprefix & Hall & Hsome).
    cbn [gcp_metadata_handle heap events label_list transferred]
      in Hprefix, Hall, Hsome.
    rewrite <- app_assoc in Hall, Hsome. cbn [app] in Hall, Hsome.
    cbn [mbind outcome_bind gcp_metadata_handle heap events].
    eexists _, _. split; [reflexivity|].
    cbn [gcp_metadata_handle heap events]. split; [by destruct failed|].
    split; [done|]. intros _.
    destruct failed; cbn [gcp_metadata_handle heap events curl_p headers
                          label_list transferred].
    + destruct (Hsome eq_refl) as (pre & k & v & -> & Hrefused).
      rewrite decide_True by done.
      split; [done|]. split.
      * right. split; [done|]. split; [eauto|]. split; [done|].
        rewrite !dispatches_app, dispatches_add_events.
        cbn. by rewrite !app_nil_r.
      * split; [done|]. intros Hacc.
        by destruct (refused_not_accepted _ _ _ _ _ Hprefix Hrefused).
    + destruct (Hall eq_refl) as [-> Hacc].
      rewrite decide_False by (intros Hne; by apply Hne).
      split; [done|]. split; [|done].
      left. split; [done|]. split; [done|]. split; [done|].
      rewrite !dispatches_app, dispatches_add_events. cbn.
      by rewrite !app_nil_r.
Qed.

(** X17: no callback returns holding the lock or with cancellation
    disabled: what a callback adds to the lock and cancel-state events is
    either nothing, for a configuration call that is refused, or one
    disable, lock, unlock, enable in this order. *)
Theorem callbacks_release_lock :
  (∀ curl_easy_init curl_slist_append s rc s',
     gcp_metadata_init curl_easy_init curl_slist_append s = Done (rc, s') →
     lock_events (events s') = lock_events (events s) ++ locked_section)
  ∧ (∀ key value s rc s',
       gcp_metadata_config key value s = Done (rc, s') →
       lock_events (events s')
       = lock_events (events s)
           ++ if decide (rc = 0) then locked_section else [])
  ∧ (∀ s rc s',
       gcp_metadata_read DATA_MAX_NAME_LEN meta_data_add_string
                         curl_easy_perform s = Done (rc, s') →
       lock_events (events s') = lock_events (events s) ++ locked_section)
  ∧ (∀ s rc s',
       gcp_metadata_shutdown s = Done (rc, s') →
       lock_events (events s') = lock_events (events s) ++ locked_section).
Proof.
  split; [|split; [|split]].
  - intros i1 i2 s rc s'. rewrite gcp_metadata_init_run. cbv zeta.
    intros [= <- <-]. cbn [events]. rewrite !lock_events_app.
    by destruct (_ && negb i2).
  - intros key value s rc s'.
    destruct (decide (key = Some "ExtraMetricFields")) as [->|Hne].
    + destruct value as [v|].
      * rewrite gcp_metadata_config_run. cbv zeta.
        destruct (tokenize_extra_fields _ _ _) as [|[[rc0 l] h]];
          [discriminate|].
        cbn [mbind outcome_bind]. intros [= <- <-].
        cbn [events]. by rewrite lock_events_app.
      * rewrite gcp_metadata_config_refused by auto.
        intros [= <- <-]. cbn. by rewrite app_nil_r.
    + rewrite gcp_metadata_config_refused by auto.
      intros [= <- <-]. cbn. by rewrite app_nil_r.
  - intros s rc s'.
    destruct (curl_easy_perform (curl_p (gcp_metadata_handle s))
                (label_list (gcp_metadata_handle s)) (heap s))
      as [|[[res l1] h1]] eqn:Hperform.
    + by rewrite gcp_metadata_read_fault.
    + rewrite (gcp_metadata_read_run s res l1 h1 Hperform).
      case_decide.
      * rewrite gcp_metadata_cleanup_run.
        cbn [mbind outcome_bind gcp_metadata_handle heap events curl_p].
        intros [= <- <-].
        destruct (curl_p (gcp_metadata_handle s)); cbn [events];
          rewrite !lock_events_app; [destruct (headers _)|]; cbn;
          by rewrite <- ?app_assoc, ?app_nil_r.
      * set (transferred := PluginWorld _ _ _).
        destruct (gcp_metadata_submit_run transferred)
          as (failed & adds & -> & _).
        cbn [mbind outcome_bind gcp_metadata_handle heap events].
        intros [= <- <-]. cbn [events transferred].
        rewrite !lock_events_app, lock_events_add_events.
        destruct failed; cbn; by rewrite <- ?app_assoc, ?app_nil_r.
  - intros s rc s'. rewrite gcp_metadata_shutdown_run. cbv zeta.
    intros [= <- <-]. cbn [events]. rewrite !lock_events_app.
    destruct (curl_p _); [destruct (headers _)|]; cbn;
      by rewrite <- ?app_assoc, ?app_nil_r.
Qed.

End GcpMetadataProperties.

(** ** Instances of the further properties *)

(** The most specific record wins on both registries. *)
Lemma threshold_search_frame_witness :
  (threshold_search 128 (Some (labelled_metric "h" "p" "t" "d"))
                    (World wider_registry [])).1
  = (threshold_search 128 (Some (labelled_metric "h" "p" "t" "d"))
                      registry).1.
Proof.
  apply (threshold_search_frame 128 (Some (labelled_metric "h" "p" "t" "d"))
           (threshold_tree registry) wider_registry []).
  intros k Hin.
  replace (probes_of _) with ["h/p/t/d"] in Hin by (vm_compute; reflexivity).
  apply list_elem_of_singleton in Hin as ->. vm_compute. reflexivity.
Defined.

(** A record stored for another host does not disturb the search. *)
Lemma threshold_search_unprobed_key_witness :
  ("other/x/t/y" ∉ ["h/p/t/d"])
  ∧ (threshold_search 128 (Some (labelled_metric "h" "p" "t" "d"))
       (World (<["other/x/t/y" := generic_threshold]>
                 (threshold_tree registry)) [])).1
    = Some specific_threshold.
Proof.
  assert (Hk : "other/x/t/y" ∉ ["h/p/t/d"]).
  { intros Hin. apply list_elem_of_singleton in Hin. discriminate. }
  split; [exact Hk|].
  destruct (threshold_search_unprobed_key 128
              (Some (labelled_metric "h" "p" "t" "d"))
              (threshold_tree registry) [] "other/x/t/y" generic_threshold)
    as [-> _].
  - replace (probes_of _) with ["h/p/t/d"] by (vm_compute; reflexivity).
    exact Hk.
  - vm_compute. reflexivity.
Defined.

(** Two keys of the registry of the tests. *)
Lemma name_buffer_injective_witness :
  name_buffer 128 (Some "h") (Some "p") (Some "t") (Some "d")
  = name_buffer 128 (Some "h") (Some "p") (Some "t") (Some "d")
  ∧ "h" = "h" ∧ "p" = "p" ∧ "t" = "t" ∧ "d" = "d".
Proof.
  split; [reflexivity|].
  apply (name_buffer_injective 128 "h" "p" "t" "d" "h" "p" "t" "d");
    try reflexivity; simpl; lia.
Defined.

(** Filling the label that has no value yet. *)
Lemma add_label_effects_witness :
  add_label (Some "name") (Some "vm") zone_labels []
  = Done (0, [Node (Some "zone") (Some "europe");
              Node (Some "name") (Some "vm")], [])
  ∧ add_label_effect "name" (Some "vm") zone_labels
      [Node (Some "zone") (Some "europe"); Node (Some "name") (Some "vm")].
Proof.
  assert (Hadd : add_label (Some "name") (Some "vm") zone_labels []
                 = Done (0, [Node (Some "zone") (Some "europe");
                             Node (Some "name") (Some "vm")], []))
    by reflexivity.
  split; [exact Hadd|].
  apply (add_label_effects (Some "name") (Some "vm") zone_labels [] 0 _ []);
    [|exact Hadd].
  unfold keyed, zone_labels. repeat constructor; simpl; eauto.
Defined.

Lemma add_label_invariants_witness :
  keyed [Node (Some "zone") (Some "europe"); Node (Some "name") (Some "vm")]
  ∧ NoDup [Some "zone"; Some "name"].
Proof.
  assert (Hkeyed : keyed zone_labels)
    by (unfold keyed, zone_labels; repeat constructor; simpl; eauto).
  destruct (add_label_invariants (Some "name") (Some "vm") zone_labels []
              0 [Node (Some "zone") (Some "europe");
                 Node (Some "name") (Some "vm")] [] Hkeyed eq_refl)
    as (Hk & Hnodup & _).
  split; [exact Hk|]. apply Hnodup. simpl.
  apply NoDup_cons. split; [|apply NoDup_singleton].
  intros Hin. apply list_elem_of_singleton in Hin. discriminate.
Defined.

Lemma add_label_first_writer_wins_witness :
  ∃ l' h',
    add_label (Some "zone") (Some "asia") zone_labels [] = Done (0, l', h')
    ∧ ∀ value2 h2, add_label (Some "zone") value2 l' h2 = Done (0, l', h2).
Proof.
  destruct (add_label_first_writer_wins "zone" "asia" zone_labels [])
    as (l' & h' & Hadd & _ & Hlater).
  - discriminate.
  - unfold keyed, zone_labels. repeat constructor; simpl; eauto.
  - constructor.
  - by exists l', h'.
Defined.


(** Shutting down the initialised plugin releases everything. *)
Lemma gcp_metadata_shutdown_releases_witness :
  ∃ s', gcp_metadata_shutdown ready_world = Done (0, s')
        ∧ gcp_metadata_handle s' = initial_handle.
Proof.
  destruct (gcp_metadata_shutdown_releases ready_world)
    as (s' & Hrun & _ & Hcurl & Hreleased & _).
  exists s'. split; [exact Hrun|].
  destruct Hreleased as [Hheaders Hlabels]; [by eexists|].
  destruct s' as [[c hs l pd] h es]. simpl in *. subst.
  rewrite gcp_metadata_shutdown_run in Hrun. by injection Hrun as <-.
Defined.

(** Initialising the fresh plugin when the header list cannot be built. *)
Lemma gcp_metadata_init_outcomes_witness :
  ∃ s', gcp_metadata_init true false (initial_world []) = Done (1, s')
        ∧ gcp_metadata_handle s' = initial_handle.
Proof.
  destruct (gcp_metadata_init_outcomes true false (initial_world []))
    as (rc & s' & Hrun & _ & _ & Hone & Hwiped & _).
  assert (Hrc : rc = 1) by (by apply Hone).
  subst rc. exists s'. split; [exact Hrun|]. by apply Hwiped.
Defined.

(** Configuring two fields on the fresh plugin registers none. *)
Lemma gcp_metadata_config_effect_witness :
  ∃ h', gcp_metadata_config (Some "ExtraMetricFields") (Some "zone,name")
                            (initial_world [])
        = Done (0, PluginWorld initial_handle h' locked_section).
Proof.
  destruct (gcp_metadata_config_effect (Some "ExtraMetricFields")
              (Some "zone,name") (initial_world []))
    as (_ & _ & Hempty).
  apply Hempty; [reflexivity | by eexists | reflexivity].
Defined.

(** A submit with a refused label keeps the handle; the value list for
    name fields of 128 characters. *)
Lemma gcp_metadata_submit_outcomes_witness :
  (∃ s', gcp_metadata_submit 128 add_string_refuses_name ready_world
         = Done (1, s')
         ∧ gcp_metadata_handle s' = gcp_metadata_handle ready_world)
  ∧ submitted_value_list 128
    = ValueList [gauge 0x3FF8000000000000] 0 0 "" "metadata" "gauge".
Proof.
  destruct (gcp_metadata_submit_outcomes 128 add_string_refuses_name
              ready_world)
    as (rc & s' & adds & Hrun & _ & _ & _ & Hcases & _ & Hvl).
  split; [|apply Hvl; lia].
  destruct Hcases as [(_ & -> & Hacc & _)|(-> & _ & Hhd & _)].
  - specialize (Hacc [("zone", "europe")] "name" "vm" [] eq_refl).
    vm_compute in Hacc. by destruct Hacc.
  - by exists s'.
Defined.

(** A read on the initialised plugin, and one on the fresh plugin. *)
Lemma gcp_metadata_read_outcomes_witness :
  (∃ s', gcp_metadata_read 128 add_string_ok transfer_quiet ready_world
         = Done (0, s')
         ∧ label_list (gcp_metadata_handle s') = []
         ∧ dispatches (events s') = [submitted_value_list 128])
  ∧ (∃ s', gcp_metadata_read 128 add_string_ok transfer_quiet
                             (initial_world []) = Done (43, s')
           ∧ dispatches (events s') = []).
Proof.
  split.
  - destruct (gcp_metadata_read_outcomes 128 add_string_ok transfer_quiet
                ready_world 0 (label_list (gcp_metadata_handle ready_world))
                [] eq_refl)
      as (rc & s' & Hrun & _ & _ & Hok).
    destruct (Hok eq_refl) as (_ & [(-> & Hl & Hd)|(_ & _ & _ & Hd)] & _).
    + by exists s'.
    + rewrite Hrun in *. vm_compute in Hrun. injection Hrun as <- <-.
      vm_compute in Hd. discriminate.
  - destruct (gcp_metadata_read_outcomes 128 add_string_ok transfer_quiet
                (initial_world []) 43 [] [] eq_refl)
      as (rc & s' & Hrun & _ & Hfail & _).
    destruct Hfail as (-> & _ & Hd & _); [discriminate|].
    by exists s'.
Defined.

(** The same read leaves the lock released. *)
Lemma callbacks_release_lock_witness :
  ∃ s', gcp_metadata_read 128 add_string_refuses_name transfer_quiet
                          ready_world = Done (1, s')
        ∧ lock_events (events s') = locked_section.
Proof.
  destruct (gcp_metadata_read 128 add_string_refuses_name transfer_quiet
              ready_world) as [|[rc s']] eqn:Hrun;
    [vm_compute in Hrun; discriminate|].
  assert (Hrc : rc = 1)
    by (vm_compute in Hrun; by injection Hrun as <- _).
  subst rc. exists s'. split; [reflexivity|].
  destruct (callbacks_release_lock 128 add_string_refuses_name
              transfer_quiet) as (_ & _ & Hread & _).
  exact (Hread ready_world 1 s' Hrun).
Defined.
